(** * Delta-conformity (dynetx/algorithms/assortativity.py)

    A shallow embedding of the conformity aggregation engine of dynetx:
    [__distance], [__label_frequency], [__normalize], [delta_conformity]
    and [sliding_delta_conformity], followed by the properties that the
    specification states about them.

    Modelling choices, all of them local to this file:
    - Python numbers (int and float) are exact rationals [Q], kept in
      lowest terms after every operation, so that equal numbers are equal
      terms.  Rounding of binary floating point is not modelled.
    - Damping factors are integers ([Z]); [str alpha] is their decimal
      rendering, the key under which Python stores them.
    - Python exceptions are the constructors of [exn]; a function that can
      raise returns a [result].
    - Python dicts are association lists in insertion order ([Dict]).
    - The dynamic graph, its time slicing and the path oracle are not part
      of the module: they are fields of the record [DynGraph]. *)

From Stdlib Require Import List String Ascii Bool Arith ZArith QArith Qreduction Qpower.
From Stdlib Require Import Qabs Lia Permutation DecimalString DecimalZ.
Import ListNotations.

Local Open Scope Z_scope.

(* ================================================================== *)
(** ** Exceptions and results *)

Inductive exn : Type :=
| ValueError
| ZeroDivisionError
| KeyError
| NetworkXError.

Inductive result (A : Type) : Type :=
| Ok (a : A)
| Raise (e : exn).

Arguments Ok {A} a.
Arguments Raise {A} e.

Definition bind {A B : Type} (m : result A) (k : A -> result B) : result B :=
  match m with
  | Ok a => k a
  | Raise e => Raise e
  end.

Declare Scope result_scope.
Delimit Scope result_scope with result.
Notation "x <- m ;; k" := (bind m (fun x => k))
  (at level 61, m at next level, right associativity) : result_scope.
Local Open Scope result_scope.

(** [for x in xs: acc = body(acc, x)], stopping at the first exception. *)
Fixpoint for_each {A S : Type} (xs : list A) (body : S -> A -> result S)
         (s : S) : result S :=
  match xs with
  | [] => Ok s
  | x :: xs' => s' <- body s x ;; for_each xs' body s'
  end.

(* ================================================================== *)
(** ** Dictionaries *)

(** Hashable keys: a boolean equality that decides Leibniz equality. *)
Class Key (K : Type) : Type := {
  keqb : K -> K -> bool;
  keqb_spec : forall a b, reflect (a = b) (keqb a b)
}.

#[export] Instance Key_string : Key string :=
  {| keqb := String.eqb; keqb_spec := String.eqb_spec |}.

#[export] Instance Key_nat : Key nat :=
  {| keqb := Nat.eqb; keqb_spec := Nat.eqb_spec |}.

Definition Dict (K V : Type) : Type := list (K * V).

Section Dictionaries.
Context {K V : Type} `{Key K}.

(** [d.get(k)] *)
Fixpoint get (d : Dict K V) (k : K) : option V :=
  match d with
  | [] => None
  | (k', v) :: d' => if keqb k' k then Some v else get d' k
  end.

(** [d[k]] *)
Definition getitem (d : Dict K V) (k : K) : result V :=
  match get d k with
  | Some v => Ok v
  | None => Raise KeyError
  end.

(** [d[k] = v]: an existing key keeps its position, a new one goes last. *)
Fixpoint setitem (d : Dict K V) (k : K) (v : V) : Dict K V :=
  match d with
  | [] => [(k, v)]
  | (k', v') :: d' =>
      if keqb k' k then (k', v) :: d' else (k', v') :: setitem d' k v
  end.

Definition keys (d : Dict K V) : list K := map fst d.
Definition values (d : Dict K V) : list V := map snd d.

(** [{key(x): val(x) for x in xs}] *)
Definition dict_comp {A : Type} (key : A -> K) (val : A -> V)
           (xs : list A) : Dict K V :=
  fold_left (fun d x => setitem d (key x) (val x)) xs [].
End Dictionaries.

(* ================================================================== *)
(** ** Numbers *)

(** Python computes on binary floating point; here every operation is the
    exact rational one, with the result in lowest terms.  A property that
    is proved below therefore speaks of the exact values: it carries over
    to the floats when rounding cannot break it (an order of evaluation, a
    key, an exception, a bound that every rounded step keeps), and it does
    not when it compares an accumulated sum with another one, as the bound
    [delta_conformity_exact_range] does. *)
Definition py_add (a b : Q) : Q := Qred (a + b).
Definition py_mul (a b : Q) : Q := Qred (a * b).

(** [a / b], true division. *)
Definition py_div (a b : Q) : result Q :=
  if Qeq_bool b 0 then Raise ZeroDivisionError else Ok (Qred (a / b)).

(** [b ** e] for an integer base and an integer exponent.  Every call
    site has [b >= 1], so that Python's error for [0 ** negative] is out
    of reach. *)
Definition py_pow (b e : Z) : Q := Qred (Qpower (inject_Z b) e).

(** [sum(xs)]: Python adds from the left, starting at [0]. *)
Definition py_sum (xs : list Q) : Q := fold_left py_add xs 0%Q.

Definition of_nat (n : nat) : Q := inject_Z (Z.of_nat n).

(** [str(z)] for an integer. *)
Definition str (z : Z) : string := NilZero.string_of_int (Z.to_int z).

(** ["_".join(profile)] *)
Definition join (profile : list string) : string := String.concat "_" profile.

(* ================================================================== *)
(** ** The snapshot graph *)

Definition node : Type := string.
Definition value : Type := string.

(** The static view returned by [time_slice]: [g._node] maps a node to its
    attribute dict, [g._adj] maps a node to its neighbours. *)
Record Graph : Type := {
  _node : Dict node (Dict string value);
  _adj : Dict node (list node)
}.

(** [g.nodes()] *)
Definition nodes (g : Graph) : list node := keys (_node g).

(** [g._node[v][label]] *)
Definition node_label (g : Graph) (v : node) (label : string) : result value :=
  attrs <- getitem (_node g) v ;; getitem attrs label.

(** [list(g.neighbors(v))]: the graph class turns the missing key into its
    own error. *)
Definition neighbors (g : Graph) (v : node) : result (list node) :=
  match get (_adj g) v with
  | Some ns => Ok ns
  | None => Raise NetworkXError
  end.

(** [hierarchies]: [None], or a dict from a label to the ranks of its
    values. *)
Definition Hierarchies : Type := option (Dict string (Dict value Z)).

(* ================================================================== *)
(** ** __distance *)

Definition distance (label : string) (v1 v2 : value) (hierarchies : Hierarchies)
  : result Q :=
  match hierarchies with
  | None => Ok (-1)%Q
  | Some h =>
      match get h label with
      | None => Ok (-1)%Q
      | Some ranks =>
          r1 <- getitem ranks v1 ;;
          r2 <- getitem ranks v2 ;;
          py_div (inject_Z (- Z.abs (r1 - r2)))
                 (inject_Z (Z.of_nat (List.length ranks) - 1))
      end
  end.

(* ================================================================== *)
(** ** __label_frequency *)

(** Line 27, the agreement indicator:
    [1 if a_u == g._node[v][label] else __distance(label, a_u, g._node[v][label], hierarchies)] *)
Definition agreement (g : Graph) (a_u : value) (v : node) (label : string)
           (hierarchies : Hierarchies) : result Q :=
  a_v <- node_label g v label ;;
  if String.eqb a_u a_v then Ok 1%Q
  else a_v' <- node_label g v label ;; distance label a_u a_v' hierarchies.

(** [len([x for x in v_neigh if g._node[x][label] == g._node[v][label]])] *)
Definition count_same (g : Graph) (v : node) (label : string)
           (v_neigh : list node) : result nat :=
  for_each v_neigh
    (fun n x =>
       a_x <- node_label g x label ;;
       a_v <- node_label g v label ;;
       Ok (if String.eqb a_x a_v then S n else n))
    0%nat.

(** Lines 28-31, the local homogeneity weight [f_label]. *)
Definition homogeneity (g : Graph) (v : node) (label : string) : result Q :=
  v_neigh <- neighbors g v ;;
  same <- count_same g v label v_neigh ;;
  f_label <- py_div (of_nat same) (of_nat (List.length v_neigh)) ;;
  Ok (if Qle_bool f_label 0 then 1%Q else f_label).

(** The inner loop over the candidates, filling the dict [sgn]. *)
Definition candidate_step (g : Graph) (a_u : value) (label : string)
           (hierarchies : Hierarchies) (sgn : Dict node Q) (v : node)
  : result (Dict node Q) :=
  sgn_v <- agreement g a_u v label hierarchies ;;
  f_label <- homogeneity g v label ;;
  Ok (setitem sgn v (py_mul sgn_v f_label)).

Definition label_step (g : Graph) (u : node) (nodes : list node)
           (hierarchies : Hierarchies) (s : Q) (label : string) : result Q :=
  a_u <- node_label g u label ;;
  sgn <- for_each nodes (candidate_step g a_u label hierarchies) [] ;;
  avg <- py_div (py_sum (values sgn)) (of_nat (List.length nodes)) ;;
  Ok (py_mul s avg).

Definition label_frequency (g : Graph) (u : node) (nodes : list node)
           (labels : list string) (hierarchies : Hierarchies) : result Q :=
  for_each labels (label_step g u nodes hierarchies) 1%Q.

(* ================================================================== *)
(** ** __normalize *)

(** The nested result: [str(alpha)] -> profile name -> node -> score. *)
Definition Scores : Type := Dict string (Dict string (Dict node Q)).

(** [res[a][p][u] = f(res[a][p][u])], the shape of the two augmented
    assignments [+=] and [/=] on the shared result. *)
Definition update_score (res : Scores) (a p : string) (u : node)
           (f : Q -> result Q) : result Scores :=
  by_profile <- getitem res a ;;
  by_node <- getitem by_profile p ;;
  x <- getitem by_node u ;;
  y <- f x ;;
  Ok (setitem res a (setitem by_profile p (setitem by_node u y))).

(** [sum([(d ** -alpha) for d in range(1, max_dist + 1)])] *)
Definition norm (alpha : Z) (max_dist : nat) : Q :=
  py_sum (map (fun d => py_pow (Z.of_nat d) (- alpha)) (seq 1 max_dist)).

Definition normalize (u : node) (scores : Scores) (max_dist : nat)
           (alphas : list Z) : result Scores :=
  for_each alphas
    (fun scores alpha =>
       let norm := norm alpha max_dist in
       by_profile <- getitem scores (str alpha) ;;
       for_each (keys by_profile)
         (fun scores profile =>
            update_score scores (str alpha) profile u (fun x => py_div x norm))
         scores)
    scores.

(* ================================================================== *)
(** ** The dynamic graph and the calls made on it *)

(** What the path oracle yields for one ordered pair: for each path type,
    [len(annotate_paths(v)[path_type])]. *)
Definition Annotated : Type := Dict string nat.

(** The collaborators of the module: [dn.temporal_snapshots_ids(dg)],
    [dg.time_slice(t_from, t_to)] and
    [all_time_respecting_paths(g, start, end)], the latter as the items of
    the dict it returns, already annotated. *)
Record DynGraph : Type := {
  temporal_snapshots_ids : list Z;
  time_slice : Z -> Z -> Graph;
  all_time_respecting_paths : Graph -> Z -> Z -> list ((node * node) * Annotated)
}.

(** A call on a collaborator, recorded in the order it is made. *)
Inductive event : Type :=
| TemporalSnapshotsIds
| TimeSlice (t_from t_to : Z)
| AllTimeRespectingPaths (start stop : Z).

(** A computation that calls collaborators: the calls made, and the
    outcome. *)
Definition io (A : Type) : Type := (list event * result A)%type.

Definition io_ret {A : Type} (a : A) : io A := ([], Ok a).

Definition io_raise {A : Type} (e : exn) : io A := ([], Raise e).

Definition io_bind {A B : Type} (m : io A) (k : A -> io B) : io B :=
  match m with
  | (tr, Ok a) => let (tr', r) := k a in (tr ++ tr', r)
  | (tr, Raise e) => (tr, Raise e)
  end.

Definition lift {A : Type} (r : result A) : io A := ([], r).

Definition call {A : Type} (ev : event) (a : A) : io A := ([ev], Ok a).

Notation "x <-- m ;; k" := (io_bind m (fun x => k))
  (at level 61, m at next level, right associativity) : result_scope.

Fixpoint io_for_each {A S : Type} (xs : list A) (body : S -> A -> io S)
         (s : S) : io S :=
  match xs with
  | [] => io_ret s
  | x :: xs' => s' <-- body s x ;; io_for_each xs' body s'
  end.

(* ================================================================== *)
(** ** delta_conformity *)

(** [itertools.combinations(xs, r)] *)
Fixpoint combinations {A : Type} (xs : list A) (r : nat) : list (list A) :=
  match r, xs with
  | O, _ => [[]]
  | S _, [] => []
  | S r', x :: xs' => map (cons x) (combinations xs' r') ++ combinations xs' r
  end.

(** Lines 110-112. *)
Definition make_profiles (labels : list string) (profile_size : Z)
  : list (list string) :=
  flat_map (combinations labels) (seq 1 (Z.to_nat profile_size)).

(** [d[k]] on a [defaultdict]. *)
Definition get_default {K V : Type} `{Key K} (dflt : V) (d : Dict K V) (k : K) : V :=
  match get d k with
  | Some v => v
  | None => dflt
  end.

(** Line 133. *)
Definition init_scores (g : Graph) (profiles : list (list string))
           (alphas : list Z) : Scores :=
  dict_comp str
    (fun _ => dict_comp join
                (fun _ => dict_comp (fun n : node => n) (fun _ => 0%Q) (nodes g))
                profiles)
    alphas.

(** Lines 137-139. *)
Definition build_distances (sp : list ((node * node) * Annotated))
           (path_type : string) : result (Dict node (Dict node nat)) :=
  for_each sp
    (fun distances kv =>
       let '((k0, k1), v) := kv in
       n <- getitem v path_type ;;
       Ok (setitem distances k0 (setitem (get_default [] distances k0) k1 n)))
    [].

(** Lines 145-148: the shells, [dist_to_nodes]. *)
Definition shells_of (sp : Dict node nat) : Dict nat (list node) :=
  fold_left
    (fun dist_to_nodes kv =>
       let '(nd, dist) := kv in
       setitem dist_to_nodes dist (get_default [] dist_to_nodes dist ++ [nd]))
    sp [].

(** Lines 155-158. *)
Definition alpha_step (u : node) (dist : nat) (profile : list string)
           (sim : Q) (res : Scores) (alpha : Z) : result Scores :=
  partial <- py_div sim (py_pow (Z.of_nat dist) alpha) ;;
  update_score res (str alpha) (join profile) u
    (fun x => Ok (py_add x partial)).

(** Lines 152-158. *)
Definition profile_step (g : Graph) (u : node) (dist : nat) (nodes : list node)
           (alphas : list Z) (hierarchies : Hierarchies)
           (res : Scores) (profile : list string) : result Scores :=
  sim <- label_frequency g u nodes profile hierarchies ;;
  for_each alphas (alpha_step u dist profile sim) res.

(** Lines 150-158: one shell. *)
Definition shell_step (g : Graph) (u : node) (profiles : list (list string))
           (alphas : list Z) (hierarchies : Hierarchies)
           (res : Scores) (shell : nat * list node) : result Scores :=
  let '(dist, nodes) := shell in
  if Nat.eqb dist 0 then Ok res
  else for_each profiles (profile_step g u dist nodes alphas hierarchies) res.

(** Lines 150-158: the unnormalized accumulation over the shells of [u]. *)
Definition accumulate (g : Graph) (u : node) (shells : Dict nat (list node))
           (profiles : list (list string)) (alphas : list Z)
           (hierarchies : Hierarchies) (res : Scores) : result Scores :=
  for_each shells (shell_step g u profiles alphas hierarchies) res.

(** Lines 141-161: the body of the loop over the nodes. *)
Definition node_step (g : Graph) (distances : Dict node (Dict node nat))
           (profiles : list (list string)) (alphas : list Z)
           (hierarchies : Hierarchies) (res : Scores) (u : node)
  : result Scores :=
  let sp := shells_of (get_default [] distances u) in
  res <- accumulate g u sp profiles alphas hierarchies res ;;
  if (0 <? List.length sp)%nat
  then normalize u res (list_max (keys sp)) alphas
  else Ok res.

(** Lines 116-121: how often each value of each attribute occurs. *)
Definition labels_value_frequency (g : Graph) : Dict string (Dict value nat) :=
  fold_left
    (fun lvf node_metadata =>
       let '(_, metadata) := node_metadata in
       fold_left
         (fun lvf kv =>
            let '(k, v) := kv in
            let by_value := get_default [] lvf k in
            setitem lvf k (setitem by_value v (get_default 0 by_value v + 1)%nat))
         metadata lvf)
    (_node g) [].

(** Lines 123-131: the relative frequencies [df]. *)
Definition value_frequency (lvf : Dict string (Dict value nat))
  : result (Dict string (Dict value Q)) :=
  for_each lvf
    (fun df kv =>
       let '(k, v) := kv in
       let tot := fold_left (fun tot pc => (tot + snd pc)%nat) v 0%nat in
       for_each v
         (fun df pc =>
            let '(p, c) := pc in
            x <- py_div (of_nat c) (of_nat tot) ;;
            Ok (setitem df k (setitem (get_default [] df k) p x)))
         df)
    [].

(** [df] is computed and never read. *)
Definition delta_conformity (dg : DynGraph) (start delta : Z) (alphas : list Z)
           (labels : list string) (profile_size : Z)
           (hierarchies : Hierarchies) (path_type : string) : io Scores :=
  if Z.of_nat (List.length labels) <? profile_size then io_raise ValueError
  else if (Z.of_nat (List.length alphas) <? 1)
          || (Z.of_nat (List.length labels) <? 1) then io_raise ValueError
  else
    let profiles := make_profiles labels profile_size in
    g <-- call (TimeSlice start (start + delta))
               (time_slice dg start (start + delta)) ;;
    df <-- lift (value_frequency (labels_value_frequency g)) ;;
    let res := init_scores g profiles alphas in
    sp <-- call (AllTimeRespectingPaths start (delta + start))
                (all_time_respecting_paths dg g start (delta + start)) ;;
    lift (distances <- build_distances sp path_type ;;
          for_each (nodes g)
                   (node_step g distances profiles alphas hierarchies) res).

(* ================================================================== *)
(** ** sliding_delta_conformity *)

(** [alpha_attribute_node_to_seq] *)
Definition Series : Type := Dict string (Dict string (Dict node (list (Z * Q)))).

(** Reading the returned nested [defaultdict]: a missing key reads as the
    empty sequence. *)
Definition series_at (s : Series) (alpha attribute : string) (n : node)
  : list (Z * Q) :=
  get_default [] (get_default [] (get_default [] s alpha) attribute) n.

(** Line 211. *)
Definition append_point (s : Series) (alpha attribute : string) (n : node)
           (pt : Z * Q) : Series :=
  let by_attribute := get_default [] s alpha in
  let by_node := get_default [] by_attribute attribute in
  setitem s alpha
    (setitem by_attribute attribute
       (setitem by_node n (get_default [] by_node n ++ [pt]))).

(** Lines 208-211. *)
Definition record_window (t_end : Z) (dconf : Scores) (s : Series) : Series :=
  fold_left
    (fun s alpha_data =>
       let '(alpha, data) := alpha_data in
       fold_left
         (fun s attribute_values =>
            let '(attribute, node_values) := attribute_values in
            fold_left
              (fun s nv => let '(n, v) := nv in
                           append_point s alpha attribute n (t_end, v))
              node_values s)
         data s)
    dconf s.

(** [tids[-1]], read only inside the loop over [tids], where the list is
    not empty. *)
Definition last_tid (tids : list Z) : Z := last tids 0.

Definition sliding_delta_conformity (dg : DynGraph) (delta : Z)
           (alphas : list Z) (labels : list string) (profile_size : Z)
           (hierarchies : Hierarchies) (path_type : string) : io Series :=
  tids <-- call TemporalSnapshotsIds (temporal_snapshots_ids dg) ;;
  io_for_each tids
    (fun s t =>
       if t + delta <? last_tid tids then
         dconf <-- delta_conformity dg t delta alphas labels profile_size
                                    hierarchies path_type ;;
         io_ret (record_window (t + delta) dconf s)
       else io_ret s)
    [].

(* ================================================================== *)
(** ** Definitions used to state the properties *)

(** The rank dict that [hierarchies] holds for a label, if any. *)
Definition hierarchy_for (hierarchies : Hierarchies) (label : string)
  : option (Dict value Z) :=
  match hierarchies with
  | None => None
  | Some h => get h label
  end.

(** [x] carries the value that [v] has for [label]. *)
Definition same_label (g : Graph) (label : string) (v x : node) : bool :=
  match node_label g x label, node_label g v label with
  | Ok a_x, Ok a_v => String.eqb a_x a_v
  | _, _ => false
  end.

(** The fraction of the neighbours [ns] of [v] that share [v]'s value. *)
Definition neighbour_fraction (g : Graph) (label : string) (v : node)
           (ns : list node) : Q :=
  Qred (of_nat (List.length (filter (same_label g label v) ns))
        / of_nat (List.length ns)).

(** Every node of [ns] has a value for [label]. *)
Definition labelled (g : Graph) (label : string) (ns : list node) : Prop :=
  forall x, In x ns -> exists a, node_label g x label = Ok a.

(** [res[a][p][n]], if the three keys are there. *)
Definition score (res : Scores) (a p : string) (n : node) : option Q :=
  match get res a with
  | Some by_profile =>
      match get by_profile p with
      | Some by_node => get by_node n
      | None => None
      end
  | None => None
  end.

(** The invariant of Python dicts: no key twice, at the three levels. *)
Definition wf_scores (res : Scores) : Prop :=
  NoDup (keys res)
  /\ forall a by_profile, get res a = Some by_profile ->
       NoDup (keys by_profile)
       /\ forall p by_node, get by_profile p = Some by_node -> NoDup (keys by_node).

(** What every step of the algorithm respects: entries stay, and so do
    the keys. *)
Record preserves (res res' : Scores) : Prop := {
  pres_domain : forall a p n, score res a p n <> None -> score res' a p n <> None;
  pres_keys : forall a, option_map keys (get res' a) = option_map keys (get res a);
  pres_wf : wf_scores res -> wf_scores res'
}.

(** A step that works for node [u] leaves the scores of every other node
    as they are. *)
Definition touches_only (u : node) (res res' : Scores) : Prop :=
  preserves res res'
  /\ forall a p n, n <> u -> score res' a p n = score res a p n.

(** The oracle reports no node at a positive distance from [u]. *)
Definition nothing_reachable (sp : list ((node * node) * Annotated))
           (path_type : string) (u : node) : Prop :=
  forall v ann d, In ((u, v), ann) sp -> get ann path_type = Some d -> d = 0%nat.

(** A term [sim / dist ** alpha], with the two keys it is added under. *)
Definition term : Type := (string * string * Q)%type.

(** [res[a][p][u] += x] *)
Definition add_term (u : node) (res : Scores) (t : term) : result Scores :=
  let '(a, p, x) := t in update_score res a p u (fun y => Ok (py_add y x)).

(** The concatenation of the lists [f x], unless one of them raises. *)
Fixpoint collect {A B : Type} (f : A -> result (list B)) (xs : list A)
  : result (list B) :=
  match xs with
  | [] => Ok []
  | x :: xs' => ys <- f x ;; zs <- collect f xs' ;; Ok (ys ++ zs)
  end.

Definition alpha_term (dist : nat) (profile : list string) (sim : Q) (alpha : Z)
  : result (list term) :=
  partial <- py_div sim (py_pow (Z.of_nat dist) alpha) ;;
  Ok [(str alpha, join profile, partial)].

Definition profile_terms (g : Graph) (u : node) (dist : nat) (ns : list node)
           (alphas : list Z) (h : Hierarchies) (profile : list string)
  : result (list term) :=
  sim <- label_frequency g u ns profile h ;;
  collect (alpha_term dist profile sim) alphas.

Definition shell_terms (g : Graph) (u : node) (profiles : list (list string))
           (alphas : list Z) (h : Hierarchies) (shell : nat * list node)
  : result (list term) :=
  let '(dist, ns) := shell in
  if Nat.eqb dist 0 then Ok []
  else collect (profile_terms g u dist ns alphas h) profiles.

(** The terms that the shells of [u] contribute: for every shell at a
    distance [dist <> 0], every profile and every alpha, the similarity of
    the shell over [dist ** alpha]. *)
Definition terms (g : Graph) (u : node) (shells : Dict nat (list node))
           (profiles : list (list string)) (alphas : list Z) (h : Hierarchies)
  : result (list term) :=
  collect (shell_terms g u profiles alphas h) shells.

(** The terms added under the keys [a] and [p]. *)
Definition terms_for (a p : string) (ts : list term) : list Q :=
  map snd
      (filter (fun t : term => String.eqb (fst (fst t)) a && String.eqb (snd (fst t)) p)
              ts).

(** The exact sum of a list of rationals. *)
Definition total (xs : list Q) : Q := fold_right Qplus 0%Q xs.

(** Under every [str(alpha)], every profile holds a score for [u]. *)
Definition ready (u : node) (alphas : list Z) (res : Scores) : Prop :=
  forall a, In a alphas ->
            exists by_profile,
              get res (str a) = Some by_profile
              /\ forall p, In p (keys by_profile) -> score res (str a) p u <> None.

(** The sequence that one score contributes. *)
Definition point (t : Z) (o : option Q) : list (Z * Q) :=
  match o with
  | Some v => [(t, v)]
  | None => []
  end.

(** Every hierarchy keeps its ranks within its size: two ranked values
    are never further apart than [len(hierarchy) - 1]. *)
Definition bounded_ranks (hierarchies : Hierarchies) : Prop :=
  forall label ranks v1 v2 r1 r2,
    hierarchy_for hierarchies label = Some ranks ->
    get ranks v1 = Some r1 -> get ranks v2 = Some r2 ->
    Z.abs (r1 - r2) <= Z.of_nat (List.length ranks) - 1.

(** [p] picks some items of [xs], in the order of [xs]. *)
Inductive Subseq {A : Type} : list A -> list A -> Prop :=
| Subseq_nil : Subseq [] []
| Subseq_skip (x : A) (p xs : list A) : Subseq p xs -> Subseq p (x :: xs)
| Subseq_take (x : A) (p xs : list A) : Subseq p xs -> Subseq (x :: p) (x :: xs).

(** No entry of [res'] is new. *)
Definition no_new_entries (res res' : Scores) : Prop :=
  forall a p n, score res' a p n <> None -> score res a p n <> None.

(** The window starts that [sliding_delta_conformity] processes. *)
Definition window_starts (tids : list Z) (delta : Z) : list Z :=
  filter (fun t => t + delta <? last_tid tids) tids.

(** What a shell at distance [d] can add, in magnitude, to an accumulator
    of damping factor [a]: [d ** -a], and nothing at distance [0]. *)
Definition weight (a : Z) (d : nat) : Q :=
  if Nat.eqb d 0 then 0%Q else py_pow (Z.of_nat d) (- a).

Definition shell_weight (a : Z) (ds : list nat) : Q := total (map (weight a) ds).

(** The point that the window starting at [t] adds to the sequence of two
    keys and a node: one when the window's result has the entry. *)
Definition window_points (dg : DynGraph) (delta : Z) (alphas : list Z)
           (labels : list string) (profile_size : Z) (hierarchies : Hierarchies)
           (path_type : string) (a p : string) (n : node) (t : Z) : list (Z * Q) :=
  match snd (delta_conformity dg t delta alphas labels profile_size
                              hierarchies path_type) with
  | Ok dconf => point (t + delta) (score dconf a p n)
  | Raise _ => []
  end.

(** The calls that one window makes. *)
Definition window_calls (delta : Z) (t : Z) : list event :=
  [TimeSlice t (t + delta); AllTimeRespectingPaths t (delta + t)].

(** Two results with the same profile keys and the same scores for [u]. *)
Definition agree_at (u : node) (r1 r2 : Scores) : Prop :=
  (forall a, option_map keys (get r1 a) = option_map keys (get r2 a))
  /\ forall a p, score r1 a p u = score r2 a p u.

(** Two results with the same profile keys and the same scores. *)
Definition same_scores (r1 r2 : Scores) : Prop :=
  forall u, agree_at u r1 r2.

(* ================================================================== *)
(** ** A worked example

    Four nodes with one label, as in the docstring of [delta_conformity]:
    [A], [C] and [D] say [SI], [B] says [NO]. *)

Local Open Scope string_scope.

Definition sample_graph : Graph :=
  {| _node := [("A", [("labels", "SI")]); ("B", [("labels", "NO")]);
               ("C", [("labels", "SI")]); ("D", [("labels", "SI")])];
     _adj := [("A", ["B"; "C"]); ("B", ["A"; "D"]); ("C", ["A"]); ("D", ["B"])] |}.

Definition sample_annotated (n : nat) : Annotated :=
  [("shortest", n); ("fastest", n)].

Definition sample_paths : list ((node * node) * Annotated) :=
  [(("A", "B"), sample_annotated 1); (("A", "D"), sample_annotated 2);
   (("A", "C"), sample_annotated 1); (("B", "D"), sample_annotated 1)].

Definition sample_dg : DynGraph :=
  {| temporal_snapshots_ids := [1; 3; 5; 7];
     time_slice := fun _ _ => sample_graph;
     all_time_respecting_paths := fun _ _ _ => sample_paths |}.

Definition sample_distances : Dict node (Dict node nat) :=
  [("A", [("B", 1%nat); ("D", 2%nat); ("C", 1%nat)]); ("B", [("D", 1%nat)])].

Definition sample_scores : Scores :=
  [("1", [("labels", [("A", 1 # 3); ("B", (-1)%Q); ("C", 0%Q); ("D", 0%Q)])])].

Definition sample_accumulated : Scores :=
  [("1", [("labels", [("A", 1 # 2); ("B", 0%Q); ("C", 0%Q); ("D", 0%Q)])])].

(** A snapshot in which [Z] has no neighbour. *)
Definition isolated_graph : Graph :=
  {| _node := [("A", [("labels", "SI")]); ("Z", [("labels", "SI")])];
     _adj := [("A", []); ("Z", [])] |}.

(** A hierarchy whose ranks are further apart than its size. *)
Definition wide_hierarchy : Hierarchies :=
  Some [("labels", [("SI", 0); ("NO", 10)])].

(** A hierarchy that does not rank [NO]. *)
Definition partial_hierarchy : Hierarchies :=
  Some [("labels", [("SI", 0); ("MAYBE", 1)])].

(** A hierarchy that ranks one value only. *)
Definition singleton_hierarchy : Hierarchies :=
  Some [("labels", [("SI", 0)])].

(** The sample graph when the oracle reports no path. *)
Definition silent_dg : DynGraph :=
  {| temporal_snapshots_ids := [1; 3; 5; 7];
     time_slice := fun _ _ => sample_graph;
     all_time_respecting_paths := fun _ _ _ => [] |}.

(** Distances under which [A] only reaches itself, at distance [0]. *)
Definition zero_distances : Dict node (Dict node nat) :=
  [("A", [("A", 0%nat)])].

Definition sample_series : Series :=
  [("1", [("labels", [("A", [(6, 1 # 3)]); ("B", [(6, (-1)%Q)]);
                      ("C", [(6, 0%Q)]); ("D", [(6, 0%Q)])])])].

Local Close Scope string_scope.

(* ================================================================== *)
(** * Properties *)

(** ** Results and loops *)

Lemma bind_Ok {A B : Type} (m : result A) (k : A -> result B) (b : B) :
  bind m k = Ok b -> exists a, m = Ok a /\ k a = Ok b.
Proof.
  destruct m as [a|e]; simpl; intros E; [eauto | discriminate].
Qed.

Lemma for_each_app {A S : Type} (xs ys : list A) (body : S -> A -> result S) (s : S) :
  for_each (xs ++ ys) body s = (s' <- for_each xs body s ;; for_each ys body s').
Proof.
  revert s; induction xs as [|x xs IH]; intros s; simpl; [reflexivity|].
  destruct (body s x); simpl; auto.
Qed.

(** A loop that returns preserves every invariant that its body preserves. *)
Lemma for_each_invariant {A S : Type} (P : S -> Prop) (xs : list A)
      (body : S -> A -> result S) :
  (forall s x s', In x xs -> P s -> body s x = Ok s' -> P s') ->
  forall s s', P s -> for_each xs body s = Ok s' -> P s'.
Proof.
  induction xs as [|x xs IH]; simpl; intros Hb s s' Hs E.
  - now inversion E; subst.
  - apply bind_Ok in E as (s1 & E1 & E2).
    eapply IH; [ | | exact E2]; eauto.
Qed.

(** A loop raises as soon as one of its items raises in every state. *)
Lemma for_each_raises {A S : Type} (xs : list A) (body : S -> A -> result S) (x : A) :
  In x xs -> (forall s, exists e, body s x = Raise e) ->
  forall s, exists e, for_each xs body s = Raise e.
Proof.
  induction xs as [|y xs IH]; simpl; intros Hin Hx s; [contradiction|].
  destruct Hin as [->|Hin].
  - destruct (Hx s) as (e & ->); simpl; eauto.
  - destruct (body s y) as [s1|e]; simpl; eauto.
Qed.

(** ** Dictionaries *)

Section DictFacts.
Context {K V : Type} `{Key K}.
Implicit Types (d : Dict K V) (k : K) (v : V).

Lemma keqb_refl k : keqb k k = true.
Proof. destruct (keqb_spec k k); congruence. Qed.

Lemma keqb_neq k k' : k <> k' -> keqb k k' = false.
Proof. destruct (keqb_spec k k'); congruence. Qed.

Lemma get_setitem d k v k' :
  get (setitem d k v) k' = if keqb k k' then Some v else get d k'.
Proof.
  induction d as [|[k0 v0] d IH]; simpl.
  - reflexivity.
  - destruct (keqb_spec k0 k) as [->|Hne]; simpl.
    + destruct (keqb k k'); reflexivity.
    + rewrite IH. destruct (keqb_spec k0 k') as [->|_]; [|reflexivity].
      now rewrite keqb_neq by congruence.
Qed.

Lemma get_setitem_same d k v : get (setitem d k v) k = Some v.
Proof. now rewrite get_setitem, keqb_refl. Qed.

Lemma get_setitem_other d k v k' :
  k <> k' -> get (setitem d k v) k' = get d k'.
Proof. intros Hne. now rewrite get_setitem, keqb_neq. Qed.

Lemma get_None_keys d k : get d k = None <-> ~ In k (keys d).
Proof.
  induction d as [|[k0 v0] d IH]; simpl; [tauto|].
  destruct (keqb_spec k0 k) as [->|Hne].
  - split; [discriminate | tauto].
  - rewrite IH. tauto.
Qed.

Lemma get_Some_keys d k v : get d k = Some v -> In k (keys d).
Proof.
  intros E. destruct (in_dec (fun a b => reflect_dec _ _ (keqb_spec a b)) k (keys d))
    as [Hin|Hn]; [exact Hin|].
  apply get_None_keys in Hn. congruence.
Qed.

Lemma in_keys_get d k : In k (keys d) -> exists v, get d k = Some v.
Proof.
  intros Hin. destruct (get d k) as [v|] eqn:E; [eauto|].
  apply get_None_keys in E. contradiction.
Qed.

Lemma get_In d k v : get d k = Some v -> In (k, v) d.
Proof.
  induction d as [|[k0 v0] d IH]; simpl; [discriminate|].
  destruct (keqb_spec k0 k) as [->|Hne]; intros E.
  - inversion E; subst. now left.
  - right; auto.
Qed.

Lemma In_get_NoDup d k v : NoDup (keys d) -> In (k, v) d -> get d k = Some v.
Proof.
  induction d as [|[k0 v0] d IH]; simpl; [tauto|].
  intros Hnd [E|Hin]; inversion Hnd as [|? ? Hn Hnd']; subst.
  - inversion E; subst. now rewrite keqb_refl.
  - rewrite keqb_neq; [auto|].
    intros ->. apply Hn. change (In k (map fst d)). now apply (in_map fst) in Hin.
Qed.

Lemma keys_setitem_present d k v v0 :
  get d k = Some v0 -> keys (setitem d k v) = keys d.
Proof.
  induction d as [|[k1 v1] d IH]; simpl; [discriminate|].
  destruct (keqb_spec k1 k) as [->|Hne]; simpl; intros E; [reflexivity|].
  f_equal. now apply IH.
Qed.

Lemma setitem_absent d k v : get d k = None -> setitem d k v = d ++ [(k, v)].
Proof.
  induction d as [|[k1 v1] d IH]; simpl; [reflexivity|].
  destruct (keqb_spec k1 k) as [->|Hne]; [discriminate|].
  intros E. now rewrite IH.
Qed.

Lemma keys_setitem_incl d k v k' :
  In k' (keys (setitem d k v)) <-> k' = k \/ In k' (keys d).
Proof.
  destruct (get d k) as [v0|] eqn:E.
  - rewrite (keys_setitem_present _ _ _ _ E).
    apply get_Some_keys in E. split; [tauto|]. intros [->|]; auto.
  - rewrite (setitem_absent _ _ _ E). unfold keys. rewrite map_app, in_app_iff.
    simpl. intuition congruence.
Qed.

Lemma NoDup_keys_setitem d k v : NoDup (keys d) -> NoDup (keys (setitem d k v)).
Proof.
  intros Hnd. destruct (get d k) as [v0|] eqn:E.
  - now rewrite (keys_setitem_present _ _ _ _ E).
  - rewrite (setitem_absent _ _ _ E). unfold keys. rewrite map_app. simpl.
    apply NoDup_app; [exact Hnd | repeat constructor; auto | ].
    intros x Hx [<-|[]]. now apply get_None_keys in E.
Qed.

Lemma dict_comp_keys {A : Type} (key : A -> K) (val : A -> V) (xs : list A) k :
  In k (keys (dict_comp key val xs)) <-> In k (map key xs).
Proof.
  unfold dict_comp.
  assert (G : forall d, In k (keys (fold_left (fun d x => setitem d (key x) (val x)) xs d))
                        <-> In k (keys d) \/ In k (map key xs)).
  { induction xs as [|x xs IH]; intros d; simpl; [tauto|].
    rewrite IH, keys_setitem_incl. intuition congruence. }
  rewrite G. simpl. tauto.
Qed.

Lemma dict_comp_NoDup {A : Type} (key : A -> K) (val : A -> V) (xs : list A) :
  NoDup (keys (dict_comp key val xs)).
Proof.
  unfold dict_comp.
  assert (G : forall d, NoDup (keys d) ->
              NoDup (keys (fold_left (fun d x => setitem d (key x) (val x)) xs d))).
  { induction xs as [|x xs IH]; intros d Hd; simpl; [exact Hd|].
    apply IH. now apply NoDup_keys_setitem. }
  apply G. constructor.
Qed.

(** When every item gets the same value [c], that is what every key holds. *)
Lemma dict_comp_const {A : Type} (key : A -> K) (c : V) (xs : list A) k v :
  get (dict_comp key (fun _ => c) xs) k = Some v -> v = c.
Proof.
  unfold dict_comp.
  assert (G : forall d, (forall v, get d k = Some v -> v = c) ->
              get (fold_left (fun d x => setitem d (key x) c) xs d) k = Some v -> v = c).
  { induction xs as [|x xs IH]; intros d Hd; simpl; [apply Hd|].
    apply IH. intros v'. rewrite get_setitem.
    destruct (keqb (key x) k); [congruence | apply Hd]. }
  apply G. simpl. discriminate.
Qed.
End DictFacts.

(** ** Numbers *)

Lemma py_div_Ok (a b x : Q) :
  py_div a b = Ok x <-> ~ (b == 0)%Q /\ x = Qred (a / b).
Proof.
  unfold py_div. destruct (Qeq_bool b 0) eqn:E.
  - apply Qeq_bool_iff in E. split; [discriminate | tauto].
  - apply Qeq_bool_neq in E. split.
    + intros [= <-]. auto.
    + intros [_ ->]. reflexivity.
Qed.

Lemma py_div_zero (a : Q) : py_div a 0 = Raise ZeroDivisionError.
Proof. reflexivity. Qed.

Lemma of_nat_zero_iff (n : nat) : (of_nat n == 0)%Q <-> n = 0%nat.
Proof.
  unfold of_nat, Qeq; simpl. lia.
Qed.

Lemma of_nat_nonneg (n : nat) : (0 <= of_nat n)%Q.
Proof. unfold of_nat, Qle; simpl. lia. Qed.

Lemma Qred_canon (q : Q) : Qred (Qred q) = Qred q.
Proof. apply Qred_complete, Qred_correct. Qed.

Lemma py_mul_1_l (q : Q) : py_mul 1 (Qred q) = Qred q.
Proof.
  unfold py_mul. apply Qred_complete. rewrite Qred_correct. ring.
Qed.

(* ================================================================== *)
(** ** Argument validation of [delta_conformity] *)

(** C3: when [profile_size > len(labels)], or [alphas] is empty, or
    [labels] is empty, [delta_conformity] raises [ValueError] and has made
    no call on the dynamic graph: neither the time slice nor the path
    oracle has been asked for. *)
Theorem delta_conformity_invalid_argument
        (dg : DynGraph) (start delta : Z) (alphas : list Z) (labels : list string)
        (profile_size : Z) (hierarchies : Hierarchies) (path_type : string) :
  profile_size > Z.of_nat (List.length labels) \/ alphas = [] \/ labels = [] ->
  delta_conformity dg start delta alphas labels profile_size hierarchies path_type
  = ([], Raise ValueError).
Proof.
  intros Hbad. unfold delta_conformity.
  destruct (Z.ltb_spec (Z.of_nat (List.length labels)) profile_size) as [Hlt|Hge];
    [reflexivity|].
  destruct Hbad as [Hgt | [-> | ->]]; [lia | reflexivity | ].
  simpl. now rewrite orb_true_r.
Qed.

(* ================================================================== *)
(** ** The agreement indicator *)

Lemma distance_no_hierarchy (label : string) (v1 v2 : value) (h : Hierarchies) :
  hierarchy_for h label = None -> distance label v1 v2 h = Ok (-1)%Q.
Proof.
  unfold hierarchy_for, distance. destruct h as [d|]; [|reflexivity].
  now intros ->.
Qed.

Lemma distance_hierarchy (label : string) (v1 v2 : value) (h : Hierarchies)
      (ranks : Dict value Z) :
  hierarchy_for h label = Some ranks ->
  distance label v1 v2 h =
  (r1 <- getitem ranks v1 ;;
   r2 <- getitem ranks v2 ;;
   py_div (inject_Z (- Z.abs (r1 - r2)))
          (inject_Z (Z.of_nat (List.length ranks) - 1))).
Proof.
  unfold hierarchy_for, distance. destruct h as [d|]; [|discriminate].
  now intros ->.
Qed.

Lemma agreement_match (g : Graph) (a_u : value) (v : node) (label : string)
      (h : Hierarchies) :
  node_label g v label = Ok a_u -> agreement g a_u v label h = Ok 1%Q.
Proof.
  intros E. unfold agreement. rewrite E. simpl. now rewrite String.eqb_refl.
Qed.

Lemma agreement_mismatch (g : Graph) (a_u a_v : value) (v : node) (label : string)
      (h : Hierarchies) :
  node_label g v label = Ok a_v -> a_u <> a_v ->
  agreement g a_u v label h = distance label a_u a_v h.
Proof.
  intros E Hne. unfold agreement. rewrite E. simpl.
  apply String.eqb_neq in Hne. now rewrite Hne.
Qed.

(** Two different keys that are both found take two entries. *)
Lemma two_keys_length {V : Type} (d : Dict string V) (k1 k2 : string) (x1 x2 : V) :
  k1 <> k2 -> get d k1 = Some x1 -> get d k2 = Some x2 -> (2 <= List.length d)%nat.
Proof.
  intros Hne E1 E2.
  destruct d as [|[ka va] [|[kb vb] d]]; simpl in *; try discriminate; [|lia].
  destruct (String.eqb_spec ka k1), (String.eqb_spec ka k2);
    try discriminate; congruence.
Qed.

(** The graded penalty [-|r1 - r2| / (size - 1)] is never positive, and it
    stays above [-1] when the two ranks are no further apart than
    [size - 1]. *)
Lemma graded_penalty_bounds (r1 r2 : Z) (size : nat) :
  (2 <= size)%nat ->
  let x := Qred (inject_Z (- Z.abs (r1 - r2)) / inject_Z (Z.of_nat size - 1)) in
  (x <= 0)%Q /\ (Z.abs (r1 - r2) <= Z.of_nat size - 1 -> (-1 <= x)%Q).
Proof.
  intros Hsz x. subst x.
  set (n := Z.abs (r1 - r2)). set (m := Z.of_nat size - 1).
  assert (Hn : 0 <= n) by apply Z.abs_nonneg.
  assert (Hm : 0 < m) by (subst m; lia).
  assert (Hm' : (0 < inject_Z m)%Q) by (unfold Qlt; simpl; lia).
  split.
  - rewrite Qred_correct. apply Qle_shift_div_r; [exact Hm'|].
    unfold Qle; simpl. lia.
  - intros Hle. rewrite Qred_correct. apply Qle_shift_div_l; [exact Hm'|].
    unfold Qle, Qmult, inject_Z, Qnum, Qden. lia.
Qed.

(** C6, as the code has it: the agreement indicator of a candidate [v] is
    [1] when the source and [v] share the label's value; otherwise, when no
    hierarchy exists for the label, it is [-1]; otherwise, when the
    hierarchy ranks both values, it is
    [-|rank(source_value) - rank(v_value)| / (hierarchy_size - 1)], a value
    that is never positive and that lies in [[-1, 0]] when the two ranks
    differ by at most [hierarchy_size - 1]. *)
Theorem agreement_indicator
        (g : Graph) (a_u a_v : value) (v : node) (label : string) (h : Hierarchies) :
  node_label g v label = Ok a_v ->
  (a_u = a_v -> agreement g a_u v label h = Ok 1%Q)
  /\ (a_u <> a_v -> hierarchy_for h label = None ->
      agreement g a_u v label h = Ok (-1)%Q)
  /\ (a_u <> a_v ->
      forall ranks r_u r_v,
        hierarchy_for h label = Some ranks ->
        get ranks a_u = Some r_u -> get ranks a_v = Some r_v ->
        let x := Qred (inject_Z (- Z.abs (r_u - r_v))
                       / inject_Z (Z.of_nat (List.length ranks) - 1)) in
        agreement g a_u v label h = Ok x
        /\ (x <= 0)%Q
        /\ (Z.abs (r_u - r_v) <= Z.of_nat (List.length ranks) - 1 -> (-1 <= x)%Q)).
Proof.
  intros Ev. split; [|split].
  - intros ->. now apply agreement_match.
  - intros Hne Hh. rewrite (agreement_mismatch _ _ _ _ _ _ Ev Hne).
    now apply distance_no_hierarchy.
  - intros Hne ranks r_u r_v Hh Eu Ew x.
    pose proof (two_keys_length _ _ _ _ _ Hne Eu Ew) as Hsz.
    split; [|now apply graded_penalty_bounds].
    rewrite (agreement_mismatch _ _ _ _ _ _ Ev Hne).
    rewrite (distance_hierarchy _ _ _ _ _ Hh). unfold getitem. rewrite Eu, Ew. simpl.
    apply py_div_Ok. split; [|reflexivity].
    clear x. unfold Qeq, inject_Z, Qnum, Qden, value in *. lia.
Qed.

(** C10: with a hierarchy for the label, a mismatching pair one of whose
    values the hierarchy does not rank makes the indicator fail with
    [KeyError]; the [-1] fallback is taken when the label has no hierarchy
    at all. *)
Theorem unranked_value_raises
        (g : Graph) (a_u a_v : value) (v : node) (label : string) (h : Hierarchies) :
  node_label g v label = Ok a_v -> a_u <> a_v ->
  (forall ranks, hierarchy_for h label = Some ranks ->
                 get ranks a_u = None \/ get ranks a_v = None ->
                 agreement g a_u v label h = Raise KeyError
                 /\ distance label a_u a_v h = Raise KeyError)
  /\ (hierarchy_for h label = None ->
      agreement g a_u v label h = Ok (-1)%Q
      /\ distance label a_u a_v h = Ok (-1)%Q).
Proof.
  intros Ev Hne. rewrite (agreement_mismatch _ _ _ _ _ _ Ev Hne). split.
  - intros ranks Hh Hmiss. rewrite (distance_hierarchy _ _ _ _ _ Hh).
    unfold getitem.
    destruct (get ranks a_u) as [r1|]; simpl; [|auto].
    destruct Hmiss as [Hm|Hm]; [discriminate|]. rewrite Hm. simpl. auto.
  - intros Hh. now rewrite (distance_no_hierarchy _ _ _ _ Hh).
Qed.

(* ================================================================== *)
(** ** The local homogeneity weight *)

Lemma count_same_filter (g : Graph) (v : node) (label : string) (a_v : value)
      (ns : list node) :
  node_label g v label = Ok a_v -> labelled g label ns ->
  forall n0, for_each ns
               (fun n x =>
                  a_x <- node_label g x label ;;
                  a_v <- node_label g v label ;;
                  Ok (if String.eqb a_x a_v then S n else n)) n0
             = Ok (n0 + List.length (filter (same_label g label v) ns))%nat.
Proof.
  intros Ev. set (body := fun (n : nat) (x : node) => _).
  induction ns as [|x ns IH]; intros Hl n0; cbn [for_each filter].
  - cbn [List.length]. f_equal. lia.
  - destruct (Hl x (or_introl eq_refl)) as (a_x & Ex).
    assert (Hs : same_label g label v x = String.eqb a_x a_v)
      by (unfold same_label; now rewrite Ex, Ev).
    assert (Hb : body n0 x = Ok (if String.eqb a_x a_v then S n0 else n0))
      by (unfold body; now rewrite Ex, Ev).
    rewrite Hb, Hs. cbn [bind].
    rewrite IH by (intros y Hy; apply Hl; now right).
    destruct (String.eqb a_x a_v); cbn [List.length]; f_equal; lia.
Qed.

Lemma neighbour_fraction_nonneg (g : Graph) (label : string) (v : node)
      (ns : list node) :
  ns <> [] -> (0 <= neighbour_fraction g label v ns)%Q.
Proof.
  intros Hne. unfold neighbour_fraction. rewrite Qred_correct.
  apply Qle_shift_div_l.
  - destruct ns; [congruence|]. unfold of_nat, Qlt; simpl. lia.
  - rewrite Qmult_0_l. apply of_nat_nonneg.
Qed.

Lemma count_same_spec (g : Graph) (v : node) (label : string) (a_v : value)
      (ns : list node) :
  node_label g v label = Ok a_v -> labelled g label ns ->
  count_same g v label ns
  = Ok (List.length (filter (same_label g label v) ns)).
Proof.
  intros Ev Hl. unfold count_same.
  now rewrite (count_same_filter _ _ _ _ _ Ev Hl).
Qed.

(** The weight as the code computes it. *)
Lemma homogeneity_run (g : Graph) (v : node) (label : string) (a_v : value)
      (ns : list node) :
  neighbors g v = Ok ns -> ns <> [] ->
  node_label g v label = Ok a_v -> labelled g label ns ->
  homogeneity g v label
  = Ok (if Qle_bool (neighbour_fraction g label v ns) 0 then 1%Q
        else neighbour_fraction g label v ns).
Proof.
  intros En Hne Ev Hl. unfold homogeneity. rewrite En. cbn [bind].
  rewrite (count_same_spec _ _ _ _ _ Ev Hl). cbn [bind].
  assert (Hd : py_div (of_nat (List.length (filter (same_label g label v) ns)))
                      (of_nat (List.length ns))
               = Ok (neighbour_fraction g label v ns)).
  { apply py_div_Ok. split; [|reflexivity].
    rewrite of_nat_zero_iff. destruct ns; simpl; congruence. }
  rewrite Hd. reflexivity.
Qed.

Lemma Forall2_labelled (g : Graph) (label : string) (ns : list node)
      (vals : list value) :
  Forall2 (fun x a_x => node_label g x label = Ok a_x) ns vals -> labelled g label ns.
Proof.
  induction 1 as [|x a_x ns vals Hx _ IH]; intros y Hy; [destruct Hy|].
  destruct Hy as [<-|Hy]; [eauto | now apply IH].
Qed.

(** The neighbours that the code counts are the occurrences of the value
    of [v] among the values of the neighbours. *)
Lemma filter_same_label_count (g : Graph) (v : node) (label : string)
      (a_v : value) (ns : list node) (vals : list value) :
  node_label g v label = Ok a_v ->
  Forall2 (fun x a_x => node_label g x label = Ok a_x) ns vals ->
  List.length (filter (same_label g label v) ns) = count_occ string_dec vals a_v.
Proof.
  intros Ev. induction 1 as [|x a_x ns vals Hx _ IH]; [reflexivity|].
  cbn [filter count_occ].
  assert (Hs : same_label g label v x = String.eqb a_x a_v)
    by (unfold same_label; now rewrite Hx, Ev).
  rewrite Hs.
  destruct (string_dec a_x a_v) as [->|Hne].
  - rewrite String.eqb_refl. cbn [List.length]. now rewrite IH.
  - apply String.eqb_neq in Hne. now rewrite Hne.
Qed.

(** C8: the weight of [v] for a label is the fraction of [v]'s snapshot
    neighbours that share [v]'s own value for the label, and a fraction of
    exactly [0] is replaced by [1]: with [a_v] the value of [v] and [vals]
    the values of its neighbours [ns], the weight is the number of
    occurrences of [a_v] in [vals] over the number of neighbours.  The
    weight takes neither the source nor a distance: it is read off the
    snapshot alone. *)
Theorem homogeneity_is_neighbour_fraction
        (g : Graph) (v : node) (label : string) (a_v : value) (ns : list node)
        (vals : list value) :
  neighbors g v = Ok ns -> ns <> [] ->
  node_label g v label = Ok a_v ->
  Forall2 (fun x a_x => node_label g x label = Ok a_x) ns vals ->
  let fraction := (inject_Z (Z.of_nat (count_occ string_dec vals a_v))
                   / inject_Z (Z.of_nat (List.length ns)))%Q in
  homogeneity g v label = Ok (if Qeq_bool fraction 0 then 1%Q else Qred fraction).
Proof.
  intros En Hne Ev Hvals fraction.
  rewrite (homogeneity_run _ _ _ _ _ En Hne Ev (Forall2_labelled _ _ _ _ Hvals)).
  pose proof (neighbour_fraction_nonneg g label v ns Hne) as Hpos.
  assert (Hnf : neighbour_fraction g label v ns = Qred fraction).
  { unfold neighbour_fraction, fraction, of_nat.
    now rewrite (filter_same_label_count _ _ _ _ _ _ Ev Hvals). }
  rewrite Hnf in *. f_equal.
  destruct (Qeq_bool fraction 0) eqn:E0.
  - apply Qeq_bool_iff in E0.
    assert (Hle : Qle_bool (Qred fraction) 0 = true)
      by (apply Qle_bool_iff; rewrite Qred_correct, E0; apply Qle_refl).
    now rewrite Hle.
  - apply Qeq_bool_neq in E0.
    destruct (Qle_bool (Qred fraction) 0) eqn:Hle; [|reflexivity].
    apply Qle_bool_iff in Hle. exfalso. apply E0.
    rewrite <- (Qred_correct fraction). now apply Qle_antisym.
Qed.

(** The weight is a number in lowest terms. *)
Lemma homogeneity_canon (g : Graph) (v : node) (label : string) (w : Q) :
  homogeneity g v label = Ok w -> Qred w = w.
Proof.
  unfold homogeneity. intros E.
  apply bind_Ok in E as (ns & _ & E).
  apply bind_Ok in E as (same & _ & E).
  apply bind_Ok in E as (f & Ef & E).
  pose proof (proj1 (py_div_Ok _ _ _) Ef) as [_ Hf].
  destruct (Qle_bool f 0); injection E as <-; [reflexivity|].
  rewrite Hf. apply Qred_canon.
Qed.

(** The scorer on its own, whatever its caller hands it: for a candidate
    with no neighbours the neighbour fraction divides by zero and the
    error leaves the similarity computation; the weight [1] is substituted
    for a candidate that has neighbours, none of which shares its value.
    Whether [delta_conformity] can hand over such a candidate is decided by
    the time slice and the path oracle. *)
Lemma zero_degree_candidate_raises
        (g : Graph) (u v : node) (candidates : list node) (label : string)
        (labels : list string) (h : Hierarchies) :
  (neighbors g v = Ok [] ->
   homogeneity g v label = Raise ZeroDivisionError
   /\ (In v candidates ->
       exists e, label_frequency g u candidates (label :: labels) h = Raise e))
  /\ (forall ns a_v,
         neighbors g v = Ok ns -> ns <> [] ->
         node_label g v label = Ok a_v -> labelled g label ns ->
         filter (same_label g label v) ns = [] ->
         homogeneity g v label = Ok 1%Q).
Proof.
  split.
  - intros En.
    assert (Hh : homogeneity g v label = Raise ZeroDivisionError)
      by (unfold homogeneity; rewrite En; reflexivity).
    split.
    + exact Hh.
    + intros Hin. unfold label_frequency. cbn [for_each]. unfold label_step at 1.
      destruct (node_label g u label) as [a_u|e]; cbn [bind]; [|eauto].
      destruct (for_each_raises candidates (candidate_step g a_u label h) v Hin)
        with (s := @nil (node * Q)) as (e & ->); [|cbn [bind]; eauto].
      intros s. unfold candidate_step. rewrite Hh.
      destruct (agreement g a_u v label h); cbn [bind]; eauto.
  - intros ns a_v En Hne Ev Hl Hnone.
    rewrite (homogeneity_run _ _ _ _ _ En Hne Ev Hl).
    unfold neighbour_fraction. rewrite Hnone.
    destruct ns as [|x ns]; [congruence|]. reflexivity.
Qed.

(* ================================================================== *)
(** ** The similarity of an exact-match shell *)

Lemma py_mul_1_canon (w : Q) : Qred w = w -> py_mul 1 w = w.
Proof.
  intros Hw. unfold py_mul. rewrite <- Hw at 2. apply Qred_complete. ring.
Qed.

Lemma values_setitem_fresh {K V : Type} `{Key K} (d : Dict K V) (k : K) (v : V) :
  get d k = None -> values (setitem d k v) = values d ++ [v].
Proof.
  intros E. rewrite (setitem_absent _ _ _ E). unfold values. now rewrite map_app.
Qed.

(** When every candidate agrees with the source, the dict [sgn] ends up
    holding the weights of the candidates, in order. *)
Lemma sgn_of_matching_shell (g : Graph) (a_u : value) (label : string)
      (h : Hierarchies) (candidates : list node) (ws : list Q) :
  Forall2 (fun v w => homogeneity g v label = Ok w) candidates ws ->
  NoDup candidates ->
  (forall v, In v candidates -> node_label g v label = Ok a_u) ->
  forall sgn0 : Dict node Q,
    (forall v, In v candidates -> get sgn0 v = None) ->
    exists sgn, for_each candidates (candidate_step g a_u label h) sgn0 = Ok sgn
                /\ values sgn = values sgn0 ++ ws.
Proof.
  induction 1 as [|v w candidates ws Hw Hrest IH]; intros Hnd Hlab sgn0 Hfresh.
  - exists sgn0. split; [reflexivity | now rewrite app_nil_r].
  - inversion Hnd as [|? ? Hv Hnd']; subst.
    cbn [for_each]. unfold candidate_step at 1.
    rewrite (agreement_match g a_u v label h) by (apply Hlab; now left).
    rewrite Hw. cbn [bind].
    rewrite (py_mul_1_canon w) by (eapply homogeneity_canon; eassumption).
    destruct (IH Hnd') with (sgn0 := setitem sgn0 v w) as (sgn & E & Hvals).
    + intros v' Hin. apply Hlab. now right.
    + intros v' Hin. rewrite get_setitem_other by (intros ->; contradiction).
      apply Hfresh. now right.
    + exists sgn. split; [exact E|].
      rewrite Hvals, values_setitem_fresh by (apply Hfresh; now left).
      now rewrite <- app_assoc.
Qed.

(** Python's [sum] is the exact sum. *)
Lemma py_sum_exact (xs : list Q) : (py_sum xs == total xs)%Q.
Proof.
  unfold py_sum.
  assert (G : forall y, (fold_left py_add xs y == y + total xs)%Q).
  { induction xs as [|x xs IH]; intros y.
    - change (total []) with 0%Q. cbn [fold_left]. ring.
    - change (total (x :: xs)) with (x + total xs)%Q. cbn [fold_left].
      rewrite IH. unfold py_add. rewrite Qred_correct. ring. }
  rewrite G. ring.
Qed.

(** C7: for a profile of one label without a hierarchy, when every
    candidate of the shell shares the source's value for that label, the
    scorer returns the arithmetic mean of the candidates' local homogeneity
    weights [ws]: their exact sum over the number of candidates. *)
Theorem exact_match_similarity
        (g : Graph) (u : node) (candidates : list node) (label : string)
        (h : Hierarchies) (a_u : value) (ws : list Q) :
  hierarchy_for h label = None ->
  node_label g u label = Ok a_u ->
  candidates <> [] -> NoDup candidates ->
  (forall v, In v candidates -> node_label g v label = Ok a_u) ->
  Forall2 (fun v w => homogeneity g v label = Ok w) candidates ws ->
  label_frequency g u candidates [label] h
  = Ok (Qred (total ws / inject_Z (Z.of_nat (List.length candidates)))).
Proof.
  intros _ Eu Hne Hnd Hlab Hws.
  unfold label_frequency. cbn [for_each]. unfold label_step. rewrite Eu. cbn [bind].
  destruct (sgn_of_matching_shell g a_u label h candidates ws Hws Hnd Hlab [])
    as (sgn & -> & Hvals); [reflexivity|].
  cbn [bind]. rewrite Hvals. cbn [values map app].
  assert (Hd : py_div (py_sum ws) (of_nat (List.length candidates))
               = Ok (Qred (py_sum ws / of_nat (List.length candidates)))).
  { apply py_div_Ok. split; [|reflexivity].
    rewrite of_nat_zero_iff. destruct candidates; simpl; congruence. }
  rewrite Hd. cbn [bind]. rewrite py_mul_1_l. f_equal.
  apply Qred_complete. unfold of_nat. now rewrite py_sum_exact.
Qed.

(* ================================================================== *)
(** ** Reading and updating the shared result *)

Lemma update_score_Ok (res res' : Scores) (a p : string) (u : node)
      (f : Q -> result Q) :
  update_score res a p u f = Ok res' ->
  exists x y,
    score res a p u = Some x /\ f x = Ok y
    /\ score res' a p u = Some y
    /\ (forall a' p' n', (a', p', n') <> (a, p, u) ->
                         score res' a' p' n' = score res a' p' n')
    /\ (forall a', option_map keys (get res' a') = option_map keys (get res a'))
    /\ (wf_scores res -> wf_scores res').
Proof.
  unfold update_score, getitem. intros E.
  destruct (get res a) as [bp|] eqn:Ea; cbn [bind] in E; [|discriminate].
  destruct (get bp p) as [bn|] eqn:Ep; cbn [bind] in E; [|discriminate].
  destruct (get bn u) as [x|] eqn:Eu; cbn [bind] in E; [|discriminate].
  destruct (f x) as [y|] eqn:Ef; cbn [bind] in E; [|discriminate].
  injection E as <-. exists x, y.
  split; [unfold score; now rewrite Ea, Ep|]. split; [exact Ef|].
  split; [unfold score; now rewrite !get_setitem_same|].
  split; [|split].
  - intros a' p' n' Hne. unfold score. rewrite get_setitem.
    destruct (keqb_spec a a') as [<-|Ha]; [|reflexivity].
    rewrite Ea, get_setitem.
    destruct (keqb_spec p p') as [<-|Hp]; [|reflexivity].
    rewrite Ep, get_setitem_other; [reflexivity|]. congruence.
  - intros a'. rewrite get_setitem.
    destruct (keqb_spec a a') as [<-|Ha]; [|reflexivity].
    rewrite Ea. cbn [option_map]. f_equal.
    eapply keys_setitem_present; eassumption.
  - intros (Hk & Hin). split.
    + erewrite keys_setitem_present; eassumption.
    + intros a' bp'. rewrite get_setitem.
      destruct (keqb_spec a a') as [<-|Ha]; [|apply Hin].
      intros [= <-]. destruct (Hin _ _ Ea) as (Hbp & Hbn). split.
      * now apply NoDup_keys_setitem.
      * intros p' bn'. rewrite get_setitem.
        destruct (keqb_spec p p') as [<-|Hp]; [|apply Hbn].
        intros [= <-]. apply NoDup_keys_setitem. eapply Hbn; eassumption.
Qed.

Lemma update_score_run (res : Scores) (a p : string) (u : node)
      (f : Q -> result Q) (x y : Q) :
  score res a p u = Some x -> f x = Ok y ->
  exists res', update_score res a p u f = Ok res'.
Proof.
  unfold score. intros Hs Hf.
  destruct (get res a) as [bp|] eqn:Ea; [|discriminate].
  destruct (get bp p) as [bn|] eqn:Ep; [|discriminate].
  unfold update_score, getitem. rewrite Ea. cbn [bind]. rewrite Ep. cbn [bind].
  rewrite Hs. cbn [bind]. rewrite Hf. cbn [bind]. eauto.
Qed.

Lemma preserves_refl (res : Scores) : preserves res res.
Proof. split; auto. Qed.

Lemma preserves_trans (r1 r2 r3 : Scores) :
  preserves r1 r2 -> preserves r2 r3 -> preserves r1 r3.
Proof.
  intros [D1 K1 W1] [D2 K2 W2]. split; auto.
  intros a. now rewrite K2, K1.
Qed.

Lemma touches_only_refl (u : node) (res : Scores) : touches_only u res res.
Proof. split; [apply preserves_refl | reflexivity]. Qed.

Lemma touches_only_trans (u : node) (r1 r2 r3 : Scores) :
  touches_only u r1 r2 -> touches_only u r2 r3 -> touches_only u r1 r3.
Proof.
  intros [P1 F1] [P2 F2]. split; [eapply preserves_trans; eassumption|].
  intros a p n Hn. now rewrite F2, F1.
Qed.

Lemma update_score_touches (res res' : Scores) (a p : string) (u : node)
      (f : Q -> result Q) :
  update_score res a p u f = Ok res' -> touches_only u res res'.
Proof.
  intros E. apply update_score_Ok in E as (x & y & Hx & _ & Hy & Hoth & Hk & Hwf).
  split; [split; auto|].
  - intros a' p' n' Hdom.
    destruct (string_dec a' a) as [->|Ha]; [|rewrite Hoth; congruence].
    destruct (string_dec p' p) as [->|Hp]; [|rewrite Hoth; congruence].
    destruct (string_dec n' u) as [->|Hn]; [|rewrite Hoth; congruence].
    congruence.
  - intros a' p' n' Hn. apply Hoth. congruence.
Qed.

(** A loop that returns relates its first and last state by every
    reflexive and transitive relation that its body respects. *)
Lemma for_each_rel {A S : Type} (R : S -> S -> Prop) (xs : list A)
      (body : S -> A -> result S) :
  (forall s, R s s) ->
  (forall s1 s2 s3, R s1 s2 -> R s2 s3 -> R s1 s3) ->
  (forall s x s', In x xs -> body s x = Ok s' -> R s s') ->
  forall s s', for_each xs body s = Ok s' -> R s s'.
Proof.
  intros Hrefl Htrans Hbody s s' E.
  eapply (for_each_invariant (R s) xs body); [ | apply Hrefl | exact E].
  intros s0 x s0' Hin HR Hb. eapply Htrans; [exact HR | eapply Hbody; eauto].
Qed.

(* ================================================================== *)
(** ** What the loops of [delta_conformity] touch *)

Lemma alpha_step_touches (u : node) (dist : nat) (profile : list string)
      (sim : Q) (res res' : Scores) (alpha : Z) :
  alpha_step u dist profile sim res alpha = Ok res' -> touches_only u res res'.
Proof.
  unfold alpha_step. intros E. apply bind_Ok in E as (partial & _ & E).
  eapply update_score_touches; eassumption.
Qed.

Lemma profile_step_touches (g : Graph) (u : node) (dist : nat) (ns : list node)
      (alphas : list Z) (h : Hierarchies) (res res' : Scores) (profile : list string) :
  profile_step g u dist ns alphas h res profile = Ok res' -> touches_only u res res'.
Proof.
  unfold profile_step. intros E. apply bind_Ok in E as (sim & _ & E).
  revert E. apply for_each_rel.
  - apply touches_only_refl.
  - apply touches_only_trans.
  - intros s x s' _. apply alpha_step_touches.
Qed.

Lemma shell_step_touches (g : Graph) (u : node) (profiles : list (list string))
      (alphas : list Z) (h : Hierarchies) (res res' : Scores) (shell : nat * list node) :
  shell_step g u profiles alphas h res shell = Ok res' -> touches_only u res res'.
Proof.
  unfold shell_step. destruct shell as [dist ns].
  destruct (Nat.eqb dist 0).
  - intros [= <-]. apply touches_only_refl.
  - apply for_each_rel.
    + apply touches_only_refl.
    + apply touches_only_trans.
    + intros s x s' _. apply profile_step_touches.
Qed.

Lemma accumulate_touches (g : Graph) (u : node) (shells : Dict nat (list node))
      (profiles : list (list string)) (alphas : list Z) (h : Hierarchies)
      (res res' : Scores) :
  accumulate g u shells profiles alphas h res = Ok res' -> touches_only u res res'.
Proof.
  unfold accumulate. apply for_each_rel.
  - apply touches_only_refl.
  - apply touches_only_trans.
  - intros s x s' _. apply shell_step_touches.
Qed.

Lemma normalize_touches (u : node) (scores res' : Scores) (max_dist : nat)
      (alphas : list Z) :
  normalize u scores max_dist alphas = Ok res' -> touches_only u scores res'.
Proof.
  unfold normalize. apply for_each_rel.
  - apply touches_only_refl.
  - apply touches_only_trans.
  - intros s alpha s' _ E. apply bind_Ok in E as (by_profile & _ & E).
    revert E. apply for_each_rel.
    + apply touches_only_refl.
    + apply touches_only_trans.
    + intros s1 p s2 _. apply update_score_touches.
Qed.

Lemma node_step_touches (g : Graph) (distances : Dict node (Dict node nat))
      (profiles : list (list string)) (alphas : list Z) (h : Hierarchies)
      (res res' : Scores) (u : node) :
  node_step g distances profiles alphas h res u = Ok res' -> touches_only u res res'.
Proof.
  unfold node_step. intros E. apply bind_Ok in E as (acc & Eacc & E).
  apply accumulate_touches in Eacc.
  destruct (0 <? _)%nat.
  - apply normalize_touches in E. eapply touches_only_trans; eassumption.
  - injection E as <-. exact Eacc.
Qed.

(** ** The initial result *)

Lemma dict_comp_get_const {K V A : Type} `{Key K} (key : A -> K) (c : V)
      (xs : list A) (x : A) :
  In x xs -> get (dict_comp key (fun _ => c) xs) (key x) = Some c.
Proof.
  intros Hin.
  destruct (in_keys_get (dict_comp key (fun _ => c) xs) (key x)) as (v & E).
  - apply dict_comp_keys. now apply in_map.
  - rewrite E. f_equal. eapply dict_comp_const; eassumption.
Qed.

Lemma init_scores_zero (g : Graph) (profiles : list (list string))
      (alphas : list Z) (a : Z) (profile : list string) (n : node) :
  In a alphas -> In profile profiles -> In n (nodes g) ->
  score (init_scores g profiles alphas) (str a) (join profile) n = Some 0%Q.
Proof.
  intros Ha Hp Hn. unfold score, init_scores.
  rewrite (dict_comp_get_const str _ alphas a Ha).
  rewrite (dict_comp_get_const join _ profiles profile Hp).
  exact (dict_comp_get_const (fun n : node => n) 0%Q (nodes g) n Hn).
Qed.

Lemma init_scores_only_zero (g : Graph) (profiles : list (list string))
      (alphas : list Z) (ka kp : string) (n : node) (x : Q) :
  score (init_scores g profiles alphas) ka kp n = Some x -> x = 0%Q.
Proof.
  unfold score, init_scores.
  destruct (get (dict_comp str _ alphas) ka) as [bp|] eqn:Ea; [|discriminate].
  apply dict_comp_const in Ea. subst bp.
  destruct (get (dict_comp join _ profiles) kp) as [bn|] eqn:Ep; [|discriminate].
  apply dict_comp_const in Ep. subst bn.
  apply dict_comp_const.
Qed.

Lemma init_scores_wf (g : Graph) (profiles : list (list string)) (alphas : list Z) :
  wf_scores (init_scores g profiles alphas).
Proof.
  unfold init_scores. split; [apply dict_comp_NoDup|].
  intros a bp Ea. apply dict_comp_const in Ea. subst bp.
  split; [apply dict_comp_NoDup|].
  intros p bn Ep. apply dict_comp_const in Ep. subst bn.
  apply dict_comp_NoDup.
Qed.

(** ** Distances and shells *)

Lemma In_setitem {K V : Type} `{Key K} (d : Dict K V) (k k' : K) (v v' : V) :
  In (k', v') (setitem d k v) -> (k', v') = (k, v) \/ In (k', v') d.
Proof.
  induction d as [|[k0 v0] d IH]; simpl.
  - intros [E|[]]. left. now symmetry.
  - destruct (keqb_spec k0 k) as [->|Hne]; simpl.
    + intros [E|Hin]; [left; now symmetry | right; now right].
    + intros [E|Hin]; [right; now left|].
      destruct (IH Hin); [now left | right; now right].
Qed.

Lemma get_default_setitem {K V : Type} `{Key K} (dflt : V) (d : Dict K V)
      (k k' : K) (v : V) :
  get_default dflt (setitem d k v) k'
  = if keqb k k' then v else get_default dflt d k'.
Proof.
  unfold get_default. rewrite get_setitem. now destruct (keqb k k').
Qed.

(** Every distance that is stored comes from an entry of the oracle. *)
Lemma build_distances_sound (sp : list ((node * node) * Annotated))
      (path_type : string) (distances : Dict node (Dict node nat)) :
  build_distances sp path_type = Ok distances ->
  forall u v d, In (v, d) (get_default [] distances u) ->
                exists ann, In ((u, v), ann) sp /\ get ann path_type = Some d.
Proof.
  unfold build_distances.
  apply (for_each_invariant
           (fun ds : Dict node (Dict node nat) =>
              forall u v d, In (v, d) (get_default [] ds u) ->
                            exists ann, In ((u, v), ann) sp /\ get ann path_type = Some d)).
  - intros ds [[k0 k1] ann] ds' Hin Hds E.
    apply bind_Ok in E as (n & En & E). injection E as <-.
    unfold getitem in En. destruct (get ann path_type) as [n'|] eqn:Eann; [|discriminate].
    injection En as ->.
    intros u v d. rewrite get_default_setitem.
    destruct (keqb_spec k0 u) as [<-|Hne]; [|apply Hds].
    intros Hvd. apply In_setitem in Hvd as [E|Hvd]; [|now apply Hds].
    injection E as -> ->. eauto.
  - intros u v d [].
Qed.

(** Every shell key is a distance of the node. *)
Lemma shells_of_keys_sound (sp : Dict node nat) (d : nat) :
  In d (keys (shells_of sp)) -> exists v, In (v, d) sp.
Proof.
  unfold shells_of.
  assert (G : forall acc : Dict nat (list node),
             In d (keys (fold_left
                           (fun dist_to_nodes kv =>
                              let '(nd, dist) := kv in
                              setitem dist_to_nodes dist
                                      (get_default [] dist_to_nodes dist ++ [nd]))
                           sp acc)) ->
             In d (keys acc) \/ exists v, In (v, d) sp).
  { induction sp as [|[nd dist] sp IH]; intros acc; cbn [fold_left]; [now left|].
    intros Hin. apply IH in Hin as [Hin|(v & Hv)].
    - apply keys_setitem_incl in Hin as [->|Hin]; [right|now left].
      exists nd. now left.
    - right. exists v. now right. }
  intros Hin. apply G in Hin as [[]|Hv]. exact Hv.
Qed.

Lemma get_default_nil_cases {K V : Type} `{Key K} (d : Dict K (list V)) (k : K) :
  get_default [] d k = [] \/ In (k, get_default [] d k) d.
Proof.
  unfold get_default. destruct (get d k) as [v|] eqn:E; [right | now left].
  now apply get_In.
Qed.

(** The distances stored for a node have one entry per target. *)
Lemma build_distances_NoDup (sp : list ((node * node) * Annotated))
      (path_type : string) (distances : Dict node (Dict node nat)) :
  build_distances sp path_type = Ok distances ->
  forall u, NoDup (keys (get_default [] distances u)).
Proof.
  unfold build_distances.
  apply (for_each_invariant
           (fun ds : Dict node (Dict node nat) =>
              forall u, NoDup (keys (get_default [] ds u)))).
  - intros ds [[k0 k1] ann] ds' _ Hds E.
    apply bind_Ok in E as (n & _ & E). injection E as <-.
    intros u. rewrite get_default_setitem.
    destruct (keqb k0 u); [apply NoDup_keys_setitem|]; apply Hds.
  - intros u. constructor.
Qed.

(** A shell is a non-empty list of distinct nodes. *)
Lemma shells_of_distinct (sp : Dict node nat) :
  NoDup (keys sp) ->
  forall d ns, In (d, ns) (shells_of sp) -> ns <> [] /\ NoDup ns.
Proof.
  unfold shells_of.
  assert (G : forall (sp : Dict node nat) (acc : Dict nat (list node)),
             NoDup (keys sp) ->
             (forall d ns, In (d, ns) acc ->
                           ns <> [] /\ NoDup ns /\ forall v, In v ns -> ~ In v (keys sp)) ->
             forall d ns,
               In (d, ns)
                  (fold_left
                     (fun dist_to_nodes kv =>
                        let '(nd, dist) := kv in
                        setitem dist_to_nodes dist
                                (get_default [] dist_to_nodes dist ++ [nd]))
                     sp acc) ->
               ns <> [] /\ NoDup ns).
  { clear sp. induction sp as [|[nd dist] sp IH]; intros acc Hnd Hacc d ns;
      cbn [fold_left].
    - intros Hin. destruct (Hacc d ns Hin) as (H1 & H2 & _). now split.
    - inversion Hnd as [|? ? Hfresh Hnd']; subst.
      apply IH; [exact Hnd'|]. clear d ns. intros d ns Hin.
      apply In_setitem in Hin as [[= -> ->]|Hin].
      + assert (Hold : NoDup (get_default [] acc dist)
                       /\ forall v, In v (get_default [] acc dist) ->
                                    ~ In v (keys ((nd, dist) :: sp))).
        { destruct (get_default_nil_cases acc dist) as [->|Hin].
          - split; [constructor | intros v []].
          - destruct (Hacc _ _ Hin) as (_ & H2 & H3). now split. }
        destruct Hold as (Hn & Hout). split; [|split].
        * intros E. now apply app_eq_nil in E as [_ [=]].
        * apply NoDup_app; [exact Hn | repeat constructor; auto | ].
          intros v Hv [E|[]]. subst v. apply (Hout nd Hv). now left.
        * intros v Hv. apply in_app_iff in Hv as [Hv|[E|[]]];
            [|subst v; exact Hfresh].
          intros Hk. apply (Hout v Hv). now right.
      + destruct (Hacc _ _ Hin) as (H1 & H2 & H3). split; [exact H1|].
        split; [exact H2|]. intros v Hv Hk. apply (H3 v Hv). now right. }
  intros Hnd. apply G; [exact Hnd|]. intros d ns [].
Qed.

(** The candidates that [delta_conformity] hands to the scorer are
    distinct, and there is at least one. *)
Lemma shell_candidates_distinct (sp : list ((node * node) * Annotated))
      (path_type : string) (distances : Dict node (Dict node nat))
      (u : node) (d : nat) (ns : list node) :
  build_distances sp path_type = Ok distances ->
  In (d, ns) (shells_of (get_default [] distances u)) ->
  ns <> [] /\ NoDup ns.
Proof.
  intros Ed. apply shells_of_distinct. eapply build_distances_NoDup. exact Ed.
Qed.

(** Without a positive distance the divisor is [0]. *)
Lemma norm_zero_distance (alpha : Z) : norm alpha 0 = 0%Q.
Proof. reflexivity. Qed.

(** Shells at distance [0] contribute nothing. *)
Lemma accumulate_zero_shells (g : Graph) (u : node) (shells : Dict nat (list node))
      (profiles : list (list string)) (alphas : list Z) (h : Hierarchies)
      (res : Scores) :
  (forall d, In d (keys shells) -> d = 0%nat) ->
  accumulate g u shells profiles alphas h res = Ok res.
Proof.
  unfold accumulate. induction shells as [|[d ns] shells IH]; intros Hz; [reflexivity|].
  cbn [for_each shell_step]. rewrite (Hz d) by now left.
  cbn [Nat.eqb bind]. apply IH. intros d' Hd'. apply Hz. now right.
Qed.

(** A loop returns when its body returns on every item, in every state. *)
Lemma for_each_total {A S : Type} (xs : list A) (body : S -> A -> result S) :
  (forall s x, In x xs -> exists s', body s x = Ok s') ->
  forall s, exists s', for_each xs body s = Ok s'.
Proof.
  induction xs as [|x xs IH]; intros Hb s; cbn [for_each]; [eauto|].
  destruct (Hb s x (or_introl eq_refl)) as (s1 & ->). cbn [bind].
  apply IH. intros s0 y Hy. apply Hb. now right.
Qed.

Lemma get_default_In {K V : Type} `{Key K} (d : Dict K (list V)) (k : K) (x : V) :
  In x (get_default [] d k) -> exists v, In (k, v) d /\ In x v.
Proof.
  unfold get_default. destruct (get d k) as [v|] eqn:E; [|intros []].
  intros Hx. exists v. split; [now apply get_In | exact Hx].
Qed.

(** Every count of [labels_value_frequency] is at least [1]. *)
Lemma labels_value_frequency_positive (g : Graph) :
  forall k v p c,
    In (k, v) (labels_value_frequency g) -> In (p, c) v -> (1 <= c)%nat.
Proof.
  unfold labels_value_frequency.
  set (P := fun lvf : Dict string (Dict value nat) =>
              forall k v p c, In (k, v) lvf -> In (p, c) v -> (1 <= c)%nat).
  assert (Hstep : forall metadata lvf, P lvf ->
            P (fold_left
                 (fun lvf kv =>
                    let '(k, v) := kv in
                    let by_value := get_default [] lvf k in
                    setitem lvf k (setitem by_value v (get_default 0 by_value v + 1)%nat))
                 metadata lvf)).
  { induction metadata as [|[k0 v0] metadata IH]; intros lvf Hl; cbn [fold_left];
      [exact Hl|].
    apply IH. intros k v p c Hkv Hpc.
    apply In_setitem in Hkv as [[= -> ->]|Hkv]; [|eapply Hl; eassumption].
    apply In_setitem in Hpc as [[= -> ->]|Hpc]; [lia|].
    apply get_default_In in Hpc as (bv & Hbv & Hpc). eapply Hl; eassumption. }
  assert (Hall : forall nds lvf, P lvf ->
            P (fold_left
                 (fun lvf (node_metadata : node * Dict string value) =>
                    let '(_, metadata) := node_metadata in
                    fold_left
                      (fun lvf kv =>
                         let '(k, v) := kv in
                         let by_value := get_default [] lvf k in
                         setitem lvf k
                                 (setitem by_value v (get_default 0 by_value v + 1)%nat))
                      metadata lvf)
                 nds lvf)).
  { induction nds as [|[n0 metadata] nds IH]; intros lvf Hl; cbn [fold_left];
      [exact Hl|].
    apply IH, Hstep, Hl. }
  apply Hall. intros k v p c [].
Qed.

Lemma count_le_total (v : Dict value nat) (p : value) (c : nat) :
  In (p, c) v -> (c <= fold_left (fun tot pc => (tot + snd pc)%nat) v 0)%nat.
Proof.
  assert (Hmono : forall (w : Dict value nat) t,
             (t <= fold_left (fun tot pc => (tot + snd pc)%nat) w t)%nat).
  { induction w as [|[q d] w IH]; intros t; cbn [fold_left snd]; [lia|].
    specialize (IH (t + d)%nat). lia. }
  assert (G : forall t, In (p, c) v ->
                        (c <= fold_left (fun tot pc => (tot + snd pc)%nat) v t)%nat).
  { induction v as [|[q d] v IH]; intros t; cbn [fold_left snd]; [intros []|].
    intros [[= -> ->]|Hin]; [|now apply IH].
    specialize (Hmono v (t + c)%nat). lia. }
  apply G.
Qed.

(** The frequency block of [delta_conformity] never raises: every total
    it divides by counts at least one node. *)
Lemma value_frequency_returns (g : Graph) :
  exists df, value_frequency (labels_value_frequency g) = Ok df.
Proof.
  unfold value_frequency. apply for_each_total.
  intros df [k v] Hkv. apply for_each_total.
  intros df' [p c] Hpc.
  pose proof (labels_value_frequency_positive g k v p c Hkv Hpc) as Hc.
  pose proof (count_le_total v p c Hpc) as Ht.
  destruct (py_div (of_nat c) (of_nat (fold_left (fun tot pc => (tot + snd pc)%nat) v 0%nat)))
    as [x|e] eqn:E.
  - cbn [bind]. eauto.
  - exfalso. unfold py_div in E.
    destruct (Qeq_bool _ 0) eqn:E0; [|discriminate].
    apply Qeq_bool_iff, of_nat_zero_iff in E0. lia.
Qed.

(** What a normal return of [delta_conformity] went through. *)
Lemma delta_conformity_Ok (dg : DynGraph) (start delta : Z) (alphas : list Z)
      (labels : list string) (profile_size : Z) (h : Hierarchies)
      (path_type : string) (tr : list event) (res : Scores) :
  delta_conformity dg start delta alphas labels profile_size h path_type
  = (tr, Ok res) ->
  let g := time_slice dg start (start + delta) in
  let profiles := make_profiles labels profile_size in
  tr = [TimeSlice start (start + delta); AllTimeRespectingPaths start (delta + start)]
  /\ exists distances,
      build_distances (all_time_respecting_paths dg g start (delta + start)) path_type
      = Ok distances
      /\ for_each (nodes g) (node_step g distances profiles alphas h)
                  (init_scores g profiles alphas) = Ok res.
Proof.
  unfold delta_conformity.
  destruct (_ <? profile_size); [discriminate|].
  destruct (_ || _); [discriminate|].
  cbn [call io_bind lift app].
  destruct (value_frequency _) as [df|e]; [|discriminate].
  cbn [call io_bind lift app].
  intros E. injection E as <- E. split; [reflexivity|].
  apply bind_Ok in E as (distances & Ed & E). eauto.
Qed.

Lemma py_div_zero_num (b y : Q) : py_div 0 b = Ok y -> y = 0%Q.
Proof.
  intros E. apply py_div_Ok in E as (_ & ->).
  change 0%Q with (Qred 0). apply Qred_complete.
  unfold Qdiv. apply Qmult_0_l.
Qed.

(** Normalizing keeps a score of [0] at [0]. *)
Lemma normalize_keeps_zero (u n : node) (scores res' : Scores) (max_dist : nat)
      (alphas : list Z) :
  normalize u scores max_dist alphas = Ok res' ->
  (forall a p x, score scores a p n = Some x -> x = 0%Q) ->
  forall a p x, score res' a p n = Some x -> x = 0%Q.
Proof.
  unfold normalize. intros E Hz. revert E.
  apply (for_each_invariant
           (fun r : Scores => forall a p x, score r a p n = Some x -> x = 0%Q));
    [|exact Hz].
  intros s alpha s' _ Hs E. apply bind_Ok in E as (by_profile & _ & E). revert E.
  apply (for_each_invariant
           (fun r : Scores => forall a p x, score r a p n = Some x -> x = 0%Q));
    [|exact Hs].
  intros s1 kp s2 _ Hs1 E.
  apply update_score_Ok in E as (x & y & Hx & Hf & Hy & Hoth & _).
  intros a p x' Hx'.
  destruct (string_dec a (str alpha)) as [->|Ha]; [|rewrite Hoth in Hx'; [eauto|congruence]].
  destruct (string_dec p kp) as [->|Hp]; [|rewrite Hoth in Hx'; [eauto|congruence]].
  destruct (string_dec n u) as [->|Hn]; [|rewrite Hoth in Hx'; [eauto|congruence]].
  rewrite Hy in Hx'. injection Hx' as <-.
  apply Hs1 in Hx. subst x. eapply py_div_zero_num; eassumption.
Qed.

(* ================================================================== *)
(** ** Every node is scored *)

(** One turn of the loop over the nodes keeps the scores of a node from
    which nothing is reachable at [0]. *)
Lemma node_step_keeps_zero (g : Graph) (sp : list ((node * node) * Annotated))
      (path_type : string) (distances : Dict node (Dict node nat))
      (profiles : list (list string)) (alphas : list Z) (h : Hierarchies)
      (u u' : node) (res res' : Scores) :
  build_distances sp path_type = Ok distances ->
  nothing_reachable sp path_type u ->
  node_step g distances profiles alphas h res u' = Ok res' ->
  (forall a p x, score res a p u = Some x -> x = 0%Q) ->
  forall a p x, score res' a p u = Some x -> x = 0%Q.
Proof.
  intros Ed Hnone E Hz.
  destruct (string_dec u u') as [<-|Hne].
  - unfold node_step in E.
    rewrite accumulate_zero_shells in E.
    + cbn [bind] in E. destruct (0 <? _)%nat.
      * eapply normalize_keeps_zero; eassumption.
      * injection E as <-. exact Hz.
    + intros d Hd. apply shells_of_keys_sound in Hd as (v & Hv).
      destruct (build_distances_sound _ _ _ Ed _ _ _ Hv) as (ann & Hin & Hann).
      eapply Hnone; eassumption.
  - apply node_step_touches in E as [_ Hframe].
    intros a p x. rewrite Hframe by exact Hne. apply Hz.
Qed.

(** C4: when [delta_conformity] returns, its result holds a score for
    every node of the snapshot under every alpha and every generated
    profile, and that score is exactly [0] for a node from which no node
    is reachable at a positive distance. *)
Theorem every_node_scored
        (dg : DynGraph) (start delta : Z) (alphas : list Z) (labels : list string)
        (profile_size : Z) (h : Hierarchies) (path_type : string)
        (tr : list event) (res : Scores) :
  delta_conformity dg start delta alphas labels profile_size h path_type
  = (tr, Ok res) ->
  let g := time_slice dg start (start + delta) in
  let sp := all_time_respecting_paths dg g start (delta + start) in
  forall a profile n,
    In a alphas -> In profile (make_profiles labels profile_size) ->
    In n (nodes g) ->
    (exists x, score res (str a) (join profile) n = Some x)
    /\ (nothing_reachable sp path_type n ->
        score res (str a) (join profile) n = Some 0%Q).
Proof.
  intros E g sp a profile n Ha Hp Hn.
  apply delta_conformity_Ok in E as (_ & distances & Ed & E).
  fold g in Ed, E. fold sp in Ed.
  pose proof (init_scores_zero g _ alphas a profile n Ha Hp Hn) as Hinit.
  assert (Hpres : preserves (init_scores g (make_profiles labels profile_size) alphas) res).
  { revert E. apply for_each_rel.
    - apply preserves_refl.
    - apply preserves_trans.
    - intros s u s' _ Es. now apply node_step_touches in Es as [Hpr _]. }
  assert (Hex : exists x, score res (str a) (join profile) n = Some x).
  { destruct (score res (str a) (join profile) n) as [x|] eqn:Ex; [eauto|].
    exfalso. revert Ex. apply (pres_domain _ _ Hpres). congruence. }
  split; [exact Hex|].
  intros Hnone. destruct Hex as (x & Hx). rewrite Hx. f_equal.
  revert E a profile x Ha Hp Hinit Hx.
  intros E.
  assert (Hz : forall a p x, score res a p n = Some x -> x = 0%Q).
  { revert E.
    apply (for_each_invariant
             (fun r : Scores => forall a p x, score r a p n = Some x -> x = 0%Q)).
    - intros s u s' _ Hs Es. eapply node_step_keeps_zero; eassumption.
    - intros a0 p0 x0. apply init_scores_only_zero. }
  intros a0 p0 x0 _ _ _ Hx0. eapply Hz; eassumption.
Qed.

(* ================================================================== *)
(** ** The accumulator as a sum of terms *)

Lemma bind_ret_r {A : Type} (m : result A) : bind m Ok = m.
Proof. now destruct m. Qed.

Lemma for_each_app_Ok {A S : Type} (xs ys : list A) (body : S -> A -> result S)
      (s s' : S) :
  for_each (xs ++ ys) body s = Ok s' <->
  exists s1, for_each xs body s = Ok s1 /\ for_each ys body s1 = Ok s'.
Proof.
  rewrite for_each_app. split.
  - apply bind_Ok.
  - intros (s1 & -> & E). exact E.
Qed.

(** A loop whose body amounts to running a list of updates amounts to
    running the updates of all its items. *)
Lemma for_each_collect {A U S : Type} (step : S -> U -> result S)
      (body : S -> A -> result S) (f : A -> result (list U)) (xs : list A) :
  (forall x s s', In x xs ->
                  (body s x = Ok s' <->
                   exists ups, f x = Ok ups /\ for_each ups step s = Ok s')) ->
  forall s s',
    for_each xs body s = Ok s' <->
    exists ups, collect f xs = Ok ups /\ for_each ups step s = Ok s'.
Proof.
  induction xs as [|x xs IH]; intros Hbody s s'; cbn [for_each collect].
  - split.
    + intros E. exists []. now split.
    + intros (ups & [= <-] & E). exact E.
  - split.
    + intros E. apply bind_Ok in E as (s1 & E1 & E2).
      apply Hbody in E1 as (ups1 & Ef & Eu1); [|now left].
      apply IH in E2 as (ups2 & Ec & Eu2); [|intros; apply Hbody; now right].
      exists (ups1 ++ ups2). rewrite Ef, Ec. split; [reflexivity|].
      apply for_each_app_Ok. eauto.
    + intros (ups & Ec & Eu).
      apply bind_Ok in Ec as (ups1 & Ef & Ec).
      apply bind_Ok in Ec as (ups2 & Ec & [= <-]).
      apply for_each_app_Ok in Eu as (s1 & Eu1 & Eu2).
      assert (E1 : body s x = Ok s1) by (apply Hbody; [now left | eauto]).
      rewrite E1. cbn [bind].
      apply IH; [intros; apply Hbody; now right | eauto].
Qed.

Lemma alpha_step_terms (u : node) (dist : nat) (profile : list string) (sim : Q)
      (alpha : Z) (res res' : Scores) :
  alpha_step u dist profile sim res alpha = Ok res' <->
  exists ts, alpha_term dist profile sim alpha = Ok ts
             /\ for_each ts (add_term u) res = Ok res'.
Proof.
  unfold alpha_step, alpha_term.
  destruct (py_div sim (py_pow (Z.of_nat dist) alpha)) as [partial|e]; cbn [bind].
  - split.
    + intros E. eexists. split; [reflexivity|].
      cbn [for_each add_term]. rewrite E. reflexivity.
    + intros (ts & [= <-] & E). cbn [for_each add_term] in E.
      now rewrite bind_ret_r in E.
  - split; [discriminate|]. intros (ts & E & _). discriminate.
Qed.

Lemma profile_step_terms (g : Graph) (u : node) (dist : nat) (ns : list node)
      (alphas : list Z) (h : Hierarchies) (profile : list string)
      (res res' : Scores) :
  profile_step g u dist ns alphas h res profile = Ok res' <->
  exists ts, profile_terms g u dist ns alphas h profile = Ok ts
             /\ for_each ts (add_term u) res = Ok res'.
Proof.
  unfold profile_step, profile_terms.
  destruct (label_frequency g u ns profile h) as [sim|e]; cbn [bind].
  - apply for_each_collect. intros alpha s s' _. apply alpha_step_terms.
  - split; [discriminate|]. intros (ts & E & _). discriminate.
Qed.

Lemma shell_step_terms (g : Graph) (u : node) (profiles : list (list string))
      (alphas : list Z) (h : Hierarchies) (shell : nat * list node)
      (res res' : Scores) :
  shell_step g u profiles alphas h res shell = Ok res' <->
  exists ts, shell_terms g u profiles alphas h shell = Ok ts
             /\ for_each ts (add_term u) res = Ok res'.
Proof.
  unfold shell_step, shell_terms. destruct shell as [dist ns].
  destruct (Nat.eqb dist 0).
  - split.
    + intros E. exists []. now split.
    + intros (ts & [= <-] & E). exact E.
  - apply for_each_collect. intros profile s s' _. apply profile_step_terms.
Qed.

(** Accumulating over the shells is adding their terms, one by one. *)
Lemma accumulate_terms (g : Graph) (u : node) (shells : Dict nat (list node))
      (profiles : list (list string)) (alphas : list Z) (h : Hierarchies)
      (res res' : Scores) :
  accumulate g u shells profiles alphas h res = Ok res' <->
  exists ts, terms g u shells profiles alphas h = Ok ts
             /\ for_each ts (add_term u) res = Ok res'.
Proof.
  unfold accumulate, terms. apply for_each_collect.
  intros shell s s' _. apply shell_step_terms.
Qed.

Lemma terms_for_cons (a p : string) (t : term) (ts : list term) :
  terms_for a p (t :: ts)
  = if String.eqb (fst (fst t)) a && String.eqb (snd (fst t)) p
    then snd t :: terms_for a p ts else terms_for a p ts.
Proof.
  unfold terms_for. cbn [filter].
  now destruct (String.eqb (fst (fst t)) a && String.eqb (snd (fst t)) p).
Qed.

(** After the terms [ts] have been added, the score of [u] under two keys
    is its former score plus the terms added under these keys, from the
    left; and every key that a term names was there. *)
Lemma add_terms_score (u : node) (ts : list term) :
  forall res r,
    for_each ts (add_term u) res = Ok r ->
    (forall a p, score r a p u
                 = option_map (fun y => fold_left py_add (terms_for a p ts) y)
                              (score res a p u))
    /\ (forall a p x, In (a, p, x) ts -> score res a p u <> None).
Proof.
  induction ts as [|[[a0 p0] x0] ts IH]; intros res r E.
  - injection E as <-. split.
    + intros a p. now destruct (score res a p u).
    + intros a p x [].
  - cbn [for_each] in E. apply bind_Ok in E as (r1 & E1 & E2).
    cbn [add_term] in E1.
    apply update_score_Ok in E1 as (x & y & Hx & Hf & Hy & Hoth & _).
    injection Hf as <-.
    destruct (IH _ _ E2) as (IHs & IHd). split.
    + intros a p. rewrite IHs, terms_for_cons. cbn [fst snd].
      destruct (String.eqb_spec a0 a) as [<-|Ha]; cbn [andb].
      * destruct (String.eqb_spec p0 p) as [<-|Hp].
        -- now rewrite Hy, Hx.
        -- rewrite Hoth by congruence. reflexivity.
      * rewrite Hoth by congruence. reflexivity.
    + intros a p x' [[= <- <- <-]|Hin]; [congruence|].
      specialize (IHd _ _ _ Hin).
      destruct (string_dec a a0) as [->|Ha];
        [destruct (string_dec p p0) as [->|Hp]|].
      * congruence.
      * rewrite Hoth in IHd by congruence. exact IHd.
      * rewrite Hoth in IHd by congruence. exact IHd.
Qed.


(** ** Order of the shells *)



Lemma fold_left_py_add_total (xs : list Q) :
  forall y, (fold_left py_add xs y == y + total xs)%Q.
Proof.
  induction xs as [|x xs IH]; intros y; cbn [fold_left total fold_right].
  - ring.
  - rewrite IH. unfold py_add. rewrite Qred_correct. fold (total xs). ring.
Qed.





(* ================================================================== *)
(** ** Normalization *)

Lemma str_inj (a b : Z) : str a = str b -> a = b.
Proof.
  unfold str. intros E. apply DecimalZ.to_int_inj.
  assert (Hi : forall z, NilZero.int_of_string (NilZero.string_of_int (Z.to_int z))
                         = Some (Z.to_int z)).
  { intros z. apply NilZero.isi; destruct z; simpl; try discriminate;
      intros [= Hn]; now apply DecimalPos.Unsigned.to_uint_nonnil in Hn. }
  pose proof (Hi a) as Ha. rewrite E, Hi in Ha. now injection Ha.
Qed.

Lemma py_pow_pos (d : nat) (e : Z) : (1 <= d)%nat -> (0 < py_pow (Z.of_nat d) e)%Q.
Proof.
  intros Hd. unfold py_pow. rewrite Qred_correct. apply Qpower_0_lt.
  unfold Qlt, inject_Z, Qnum, Qden. lia.
Qed.

Lemma total_pos (xs : list Q) :
  xs <> [] -> (forall x, In x xs -> 0 < x)%Q -> (0 < total xs)%Q.
Proof.
  induction xs as [|x xs IH]; intros Hne Hpos; [congruence|].
  cbn [total fold_right]. fold (total xs).
  destruct xs as [|x' xs].
  - cbn [total fold_right]. rewrite Qplus_0_r. apply Hpos. now left.
  - apply Qlt_trans with (0 + total (x' :: xs))%Q.
    + rewrite Qplus_0_l. apply IH; [discriminate|]. intros y Hy. apply Hpos. now right.
    + apply Qplus_lt_le_compat; [apply Hpos; now left | apply Qle_refl].
Qed.

(** The divisor is the exact sum of the [k ** -alpha]. *)
Lemma norm_exact (alpha : Z) (max_dist : nat) :
  (norm alpha max_dist
   == total (map (fun k => Qpower (inject_Z (Z.of_nat k)) (- alpha)) (seq 1 max_dist)))%Q.
Proof.
  unfold norm, py_sum. rewrite fold_left_py_add_total, Qplus_0_l.
  generalize (seq 1 max_dist). intros ks.
  induction ks as [|k ks IH]; cbn [map total fold_right]; [reflexivity|].
  fold (total (map (fun d => py_pow (Z.of_nat d) (- alpha)) ks)).
  fold (total (map (fun k => Qpower (inject_Z (Z.of_nat k)) (- alpha)) ks)).
  rewrite IH. unfold py_pow. now rewrite Qred_correct.
Qed.

Lemma norm_pos (alpha : Z) (max_dist : nat) :
  (1 <= max_dist)%nat -> (0 < norm alpha max_dist)%Q.
Proof.
  intros Hd. unfold norm, py_sum. rewrite fold_left_py_add_total, Qplus_0_l.
  apply total_pos.
  - destruct max_dist; [lia | discriminate].
  - intros x Hx. apply in_map_iff in Hx as (d & <- & Hd').
    apply in_seq in Hd'. apply py_pow_pos. lia.
Qed.

(** The inner loop of [__normalize]: every profile under the key [ka] has
    the score of [u] divided, once. *)
Lemma divide_profiles (u : node) (ka : string) (nz : Q) (ps : list string) :
  NoDup ps -> ~ (nz == 0)%Q ->
  forall scores,
    (forall p, In p ps -> score scores ka p u <> None) ->
    exists r,
      for_each ps (fun s p => update_score s ka p u (fun x => py_div x nz)) scores
      = Ok r
      /\ (forall p, In p ps ->
                    score r ka p u
                    = option_map (fun x => Qred (x / nz)) (score scores ka p u))
      /\ (forall a p n, a <> ka \/ ~ In p ps \/ n <> u ->
                        score r a p n = score scores a p n).
Proof.
  intros Hnd Hnz. induction Hnd as [|p0 ps Hp0 Hnd IH]; intros scores Hdom.
  - exists scores. split; [reflexivity|]. split; [intros p []|reflexivity].
  - cbn [for_each].
    destruct (score scores ka p0 u) as [x|] eqn:Hx;
      [|exfalso; eapply Hdom; [now left | exact Hx]].
    assert (Hdiv : py_div x nz = Ok (Qred (x / nz)))
      by (apply py_div_Ok; now split).
    destruct (update_score_run scores ka p0 u (fun x => py_div x nz) x _ Hx Hdiv)
      as (r1 & E1).
    rewrite E1. cbn [bind].
    apply update_score_Ok in E1 as (x' & y & Hx' & Hf & Hy & Hoth & _).
    rewrite Hx in Hx'. injection Hx' as <-. rewrite Hdiv in Hf. injection Hf as <-.
    destruct (IH r1) as (r & E & Hin & Hout).
    { intros p Hp. rewrite Hoth by (intros [= ->]; contradiction).
      apply Hdom. now right. }
    exists r. split; [exact E|]. split.
    + intros p [<-|Hp].
      * rewrite Hout by (right; now left). now rewrite Hy, Hx.
      * rewrite Hin by exact Hp.
        now rewrite Hoth by (intros [= ->]; contradiction).
    + intros a p n Hne. rewrite Hout.
      * apply Hoth. intros [= -> -> ->].
        destruct Hne as [Hne|[Hne|Hne]]; [congruence | apply Hne; now left | congruence].
      * destruct Hne as [Hne|[Hne|Hne]]; [now left | right; left | right; now right].
        intros Hp. apply Hne. now right.
Qed.

Lemma ready_preserved (u : node) (alphas : list Z) (res res' : Scores) :
  preserves res res' -> ready u alphas res -> ready u alphas res'.
Proof.
  intros [Hd Hk _] Hr a Ha. destruct (Hr a Ha) as (bp & Ebp & Hbp).
  specialize (Hk (str a)). rewrite Ebp in Hk.
  destruct (get res' (str a)) as [bp'|] eqn:Ebp'; [|discriminate].
  injection Hk as Hk. exists bp'. split; [reflexivity|].
  intros p Hp. apply Hd, Hbp. now rewrite <- Hk.
Qed.

Lemma ready_tail (u : node) (a : Z) (alphas : list Z) (res : Scores) :
  ready u (a :: alphas) res -> ready u alphas res.
Proof. intros Hr a' Ha'. apply Hr. now right. Qed.

Lemma divide_profiles_preserves (u : node) (ka : string) (nz : Q) (ps : list string)
      (scores r : Scores) :
  for_each ps (fun s p => update_score s ka p u (fun x => py_div x nz)) scores = Ok r ->
  preserves scores r.
Proof.
  apply for_each_rel.
  - apply preserves_refl.
  - apply preserves_trans.
  - intros s p s' _ E. now apply update_score_touches in E as [Hp _].
Qed.

(** [__normalize] for distinct alphas and a positive [max_dist]: it
    returns; the scores of [u] under [str(alpha)] are divided by
    [norm alpha max_dist]; nothing else changes. *)
Lemma normalize_spec (u : node) (max_dist : nat) (alphas : list Z) :
  NoDup alphas -> (1 <= max_dist)%nat ->
  forall scores,
    wf_scores scores -> ready u alphas scores ->
    exists r,
      normalize u scores max_dist alphas = Ok r
      /\ (forall a p, In a alphas ->
                      score r (str a) p u
                      = option_map (fun x => Qred (x / norm a max_dist))
                                   (score scores (str a) p u))
      /\ (forall ka p n, n <> u \/ (forall a, In a alphas -> str a <> ka) ->
                         score r ka p n = score scores ka p n).
Proof.
  intros Hnd Hd. unfold normalize.
  induction Hnd as [|a0 alphas Ha0 Hnd IH]; intros scores Hwf Hready.
  - exists scores. split; [reflexivity|]. split; [intros a p []|reflexivity].
  - cbn [for_each].
    destruct (Hready a0 (or_introl eq_refl)) as (bp & Ebp & Hbp).
    unfold getitem at 1. rewrite Ebp. cbn [bind].
    assert (Hnz : ~ (norm a0 max_dist == 0)%Q).
    { intros Hz. pose proof (norm_pos a0 max_dist Hd) as Hpos.
      rewrite Hz in Hpos. now apply Qlt_irrefl in Hpos. }
    destruct (divide_profiles u (str a0) (norm a0 max_dist) (keys bp)
                              (proj1 (proj2 Hwf _ _ Ebp)) Hnz scores Hbp)
      as (r1 & E1 & Hin1 & Hout1).
    rewrite E1. cbn [bind].
    pose proof (divide_profiles_preserves _ _ _ _ _ _ E1) as Hpres.
    destruct (IH r1) as (r & E & Hin & Hout).
    { now apply (pres_wf _ _ Hpres). }
    { eapply ready_preserved; [exact Hpres|]. eapply ready_tail; eassumption. }
    exists r. split; [exact E|]. split.
    + intros a p [<-|Ha].
      * rewrite Hout by (right; intros a Ha E'; apply str_inj in E'; congruence).
        destruct (in_dec string_dec p (keys bp)) as [Hp|Hp].
        -- now apply Hin1.
        -- rewrite Hout1 by (right; now left).
           unfold score. rewrite Ebp.
           apply get_None_keys in Hp. now rewrite Hp.
      * rewrite Hin by exact Ha. f_equal. apply Hout1. left.
        intros E'. apply str_inj in E'. congruence.
    + intros ka p n Hne. rewrite Hout.
      * apply Hout1. destruct Hne as [Hne|Hne]; [right; now right | left].
        intros E'. apply (Hne a0); [now left | now symmetry].
      * destruct Hne as [Hne|Hne]; [now left | right].
        intros a Ha. apply Hne. now right.
Qed.

(** C5, as the code has it: for pairwise distinct alphas and a node [u]
    whose largest observed distance [D] is at least
    [1], the turn of [u] in the loop of [delta_conformity] divides every
    accumulated score of [u], under every alpha and profile, by
    [norm alpha D], the sum of the [k ** -alpha] for [k] from [1] to [D];
    [D] is read off the shells of [u] alone, and the scores of the other
    nodes are left as they are.  For [alpha = 1] and [D = 3] the divisor is
    [11/6]. *)
Theorem normalization_is_per_node
        (g : Graph) (distances : Dict node (Dict node nat))
        (profiles : list (list string)) (alphas : list Z) (h : Hierarchies)
        (res acc : Scores) (u : node) :
  let shells := shells_of (get_default [] distances u) in
  let D := list_max (keys shells) in
  NoDup alphas -> (1 <= D)%nat ->
  wf_scores res -> ready u alphas res ->
  accumulate g u shells profiles alphas h res = Ok acc ->
  exists res',
    node_step g distances profiles alphas h res u = Ok res'
    /\ (forall a p x,
           In a alphas -> score acc (str a) p u = Some x ->
           score res' (str a) p u = Some (Qred (x / norm a D))
           /\ (norm a D
               == total (map (fun k => Qpower (inject_Z (Z.of_nat k)) (- a)) (seq 1 D)))%Q)
    /\ (forall ka p n, n <> u -> score res' ka p n = score res ka p n)
    /\ norm 1 3 = 11 # 6.
Proof.
  intros shells D Hnd HD Hwf Hready Eacc.
  pose proof (accumulate_touches _ _ _ _ _ _ _ _ Eacc) as [Hpres Hframe].
  destruct (normalize_spec u D alphas Hnd HD acc) as (res' & En & Hin & Hout).
  { now apply (pres_wf _ _ Hpres). }
  { eapply ready_preserved; eassumption. }
  exists res'. split; [|split; [|split]].
  - unfold node_step. fold shells. rewrite Eacc. cbn [bind].
    destruct shells as [|s shells'] eqn:Es; [cbn in D; lia|].
    cbn [List.length Nat.ltb Nat.leb]. exact En.
  - intros a p x Ha Hx. split; [|apply norm_exact].
    now rewrite Hin, Hx.
  - intros ka p n Hn. rewrite Hout by now left. now apply Hframe.
  - reflexivity.
Qed.

(* ================================================================== *)
(** ** The sliding window *)

(** The result of [delta_conformity] is a well-formed nested dict. *)
Lemma delta_conformity_wf (dg : DynGraph) (start delta : Z) (alphas : list Z)
      (labels : list string) (profile_size : Z) (h : Hierarchies)
      (path_type : string) (tr : list event) (res : Scores) :
  delta_conformity dg start delta alphas labels profile_size h path_type
  = (tr, Ok res) ->
  wf_scores res.
Proof.
  intros E. apply delta_conformity_Ok in E as (_ & distances & _ & E).
  assert (Hpres : preserves (init_scores (time_slice dg start (start + delta))
                                         (make_profiles labels profile_size) alphas) res).
  { revert E. apply for_each_rel.
    - apply preserves_refl.
    - apply preserves_trans.
    - intros s u s' _ Es. now apply node_step_touches in Es as [Hpr _]. }
  apply (pres_wf _ _ Hpres), init_scores_wf.
Qed.

(** Folding over the items of a dict, seen through a view to which every
    item appends: only the item under [k0] may append something. *)
Lemma fold_dict_view {K V S X : Type} `{Key K} (F : S -> K * V -> S)
      (view : S -> list X) (c : K -> V -> list X) (k0 : K) (d : Dict K V) :
  (forall s k v, In (k, v) d -> view (F s (k, v)) = view s ++ c k v) ->
  (forall k v, k <> k0 -> c k v = []) ->
  NoDup (keys d) ->
  forall s, view (fold_left F d s)
            = view s ++ match get d k0 with Some v => c k0 v | None => [] end.
Proof.
  induction d as [|[k v] d IH]; intros HF Hc Hnd s; cbn [fold_left get].
  - now rewrite app_nil_r.
  - inversion Hnd as [|? ? Hk Hnd']; subst.
    rewrite IH; [|intros; apply HF; now right|exact Hc|exact Hnd'].
    rewrite HF by now left. rewrite <- app_assoc. f_equal.
    destruct (keqb_spec k k0) as [->|Hne].
    + apply get_None_keys in Hk. rewrite Hk. now rewrite app_nil_r.
    + now rewrite (Hc k v Hne).
Qed.

Lemma series_at_append_point (s : Series) (a p : string) (n : node) (pt : Z * Q)
      (a' p' : string) (n' : node) :
  series_at (append_point s a p n pt) a' p' n'
  = series_at s a' p' n'
    ++ (if String.eqb a a' && String.eqb p p' && String.eqb n n' then [pt] else []).
Proof.
  unfold series_at, append_point. rewrite get_default_setitem.
  cbn [keqb Key_string].
  destruct (String.eqb_spec a a') as [<-|Ha]; cbn [andb]; [|now rewrite app_nil_r].
  rewrite get_default_setitem. cbn [keqb Key_string].
  destruct (String.eqb_spec p p') as [<-|Hp]; cbn [andb]; [|now rewrite app_nil_r].
  rewrite get_default_setitem. cbn [keqb Key_string].
  destruct (String.eqb_spec n n') as [<-|Hn]; [reflexivity | now rewrite app_nil_r].
Qed.

(** Recording a window appends one point to the sequence of every key of
    the window's result, and nothing to the others. *)
Lemma series_at_record_window (t : Z) (dconf : Scores) (s : Series)
      (a p : string) (n : node) :
  wf_scores dconf ->
  series_at (record_window t dconf s) a p n
  = series_at s a p n ++ point t (score dconf a p n).
Proof.
  intros (Hk & Hwf). unfold record_window.
  rewrite (fold_dict_view _ (fun s => series_at s a p n)
             (fun (ka : string) (data : Dict string (Dict node Q)) =>
                point t (if String.eqb ka a
                         then match get data p with
                              | Some bn => get bn n
                              | None => None
                              end
                         else None))
             a dconf).
  - unfold score. rewrite String.eqb_refl. now destruct (get dconf a).
  - intros s0 ka data Hin.
    destruct (Hwf ka data (In_get_NoDup _ _ _ Hk Hin)) as (Hkd & Hwfd).
    rewrite (fold_dict_view _ (fun s => series_at s a p n)
               (fun (kp : string) (bn : Dict node Q) =>
                  point t (if String.eqb ka a && String.eqb kp p
                           then get bn n else None))
               p data).
    + f_equal. destruct (String.eqb ka a); cbn [andb].
      * rewrite String.eqb_refl. now destruct (get data p).
      * now destruct (get data p).
    + intros s1 kp bn Hinp.
      pose proof (Hwfd kp bn (In_get_NoDup _ _ _ Hkd Hinp)) as Hkn.
      rewrite (fold_dict_view _ (fun s => series_at s a p n)
                 (fun (kn : node) (v : Q) =>
                    if String.eqb ka a && String.eqb kp p && String.eqb kn n
                    then [(t, v)] else [])
                 n bn).
      * f_equal. rewrite String.eqb_refl, andb_true_r.
        destruct (String.eqb ka a && String.eqb kp p); now destruct (get bn n).
      * intros s2 kn v _. apply series_at_append_point.
      * intros kn v Hne. apply String.eqb_neq in Hne. rewrite Hne.
        now rewrite andb_false_r.
      * exact Hkn.
    + intros kp bn Hne. apply String.eqb_neq in Hne. rewrite Hne.
      now rewrite andb_false_r.
    + exact Hkd.
  - intros ka data Hne. apply String.eqb_neq in Hne. now rewrite Hne.
  - exact Hk.
Qed.

(** C1, as the code has it: with the temporal ids [[1,3,5,7]] and
    [delta = 5], exactly one window start is processed, [t = 1], since
    [1 + 5 = 6 < 7]: [delta_conformity] is called once, for the window
    [[1, 6]].  When it returns, every key of its result gets the one-point
    sequence [[(6, score)]] and every other key reads as the empty
    sequence; when it raises, so does the sliding run.  No window start is
    processed when [delta >= 6]. *)
Theorem sliding_1357
        (dg : DynGraph) (alphas : list Z) (labels : list string)
        (profile_size : Z) (h : Hierarchies) (path_type : string) :
  temporal_snapshots_ids dg = [1; 3; 5; 7] ->
  (forall tr dconf,
      delta_conformity dg 1 5 alphas labels profile_size h path_type = (tr, Ok dconf) ->
      exists s,
        sliding_delta_conformity dg 5 alphas labels profile_size h path_type
        = (TemporalSnapshotsIds :: tr, Ok s)
        /\ forall a p n, series_at s a p n = point 6 (score dconf a p n))
  /\ (forall tr e,
         delta_conformity dg 1 5 alphas labels profile_size h path_type = (tr, Raise e) ->
         sliding_delta_conformity dg 5 alphas labels profile_size h path_type
         = (TemporalSnapshotsIds :: tr, Raise e))
  /\ (forall delta,
         6 <= delta ->
         sliding_delta_conformity dg delta alphas labels profile_size h path_type
         = ([TemporalSnapshotsIds], Ok [])).
Proof.
  intros Htids. unfold sliding_delta_conformity. rewrite Htids.
  split; [|split].
  - intros tr dconf E. exists (record_window 6 dconf []). split.
    + cbn. rewrite E. cbn. now rewrite !app_nil_r.
    + intros a p n.
      now rewrite (series_at_record_window 6 dconf [] a p n
                     (delta_conformity_wf _ _ _ _ _ _ _ _ _ _ E)).
  - intros tr e E. cbn. rewrite E. cbn. now rewrite ?app_nil_r.
  - intros delta Hd. cbn [call io_bind io_for_each]. unfold last_tid. cbn [last].
    repeat match goal with
           | |- context [?t + delta <? 7] =>
               replace (t + delta <? 7) with false by (symmetry; apply Z.ltb_ge; lia)
           end.
    reflexivity.
Qed.

Lemma init_scores_ready (g : Graph) (profiles : list (list string))
      (alphas : list Z) (u : node) :
  In u (nodes g) -> ready u alphas (init_scores g profiles alphas).
Proof.
  intros Hu a Ha. unfold init_scores.
  rewrite (dict_comp_get_const str _ alphas a Ha). eexists. split; [reflexivity|].
  intros p Hp. unfold score.
  rewrite (dict_comp_get_const str _ alphas a Ha).
  apply in_keys_get in Hp as (bn & Ebn). rewrite Ebn.
  apply dict_comp_const in Ebn. subst bn.
  now rewrite (dict_comp_get_const (fun n : node => n) 0%Q (nodes g) u Hu).
Qed.

(* ================================================================== *)
(** * The example, evaluated *)

Local Open Scope string_scope.

Example sample_delta_conformity :
  delta_conformity sample_dg 1 5 [1] ["labels"] 1 None "fastest"
  = ([TimeSlice 1 6; AllTimeRespectingPaths 1 6], Ok sample_scores).
Proof. reflexivity. Qed.

Example sample_build_distances :
  build_distances sample_paths "fastest" = Ok sample_distances.
Proof. reflexivity. Qed.

Example sample_accumulate :
  accumulate sample_graph "A" (shells_of (get_default [] sample_distances "A"))
             [["labels"]] [1] None (init_scores sample_graph [["labels"]] [1])
  = Ok sample_accumulated.
Proof. reflexivity. Qed.

(** C1 fails as stated: on a graph with the temporal ids [[1,3,5,7]] and
    [delta = 5] the window that starts at [1] is processed, and the
    sequence of node [A] is not empty. *)
Lemma sliding_1357_counterexample :
  temporal_snapshots_ids sample_dg = [1; 3; 5; 7]
  /\ exists s,
      sliding_delta_conformity sample_dg 5 [1] ["labels"] 1 None "fastest"
      = ([TemporalSnapshotsIds; TimeSlice 1 6; AllTimeRespectingPaths 1 6], Ok s)
      /\ series_at s "1" "labels" "A" = [(6, 1 # 3)]
      /\ series_at s "1" "labels" "A" <> [].
Proof.
  split; [reflexivity|]. eexists. split; [reflexivity|]. split; [reflexivity|].
  discriminate.
Qed.

(** The scorer on a candidate without neighbours. *)
Example zero_degree_scorer :
  neighbors isolated_graph "Z" = Ok []
  /\ homogeneity isolated_graph "Z" "labels" = Raise ZeroDivisionError
  /\ label_frequency isolated_graph "A" ["Z"] ["labels"] None
     = Raise ZeroDivisionError.
Proof. repeat split. Qed.

(** C6 fails as stated: with the ranks [0] and [10] in a hierarchy of two
    values, the indicator is [-10], outside [[-1, 0]]. *)
Lemma agreement_range_counterexample :
  agreement sample_graph "SI" "B" "labels" wide_hierarchy = Ok (-10 # 1)
  /\ ~ (-1 <= -10 # 1)%Q.
Proof.
  split; [reflexivity|]. intros H. apply (Qle_bool_iff (-1) (-10 # 1)) in H.
  discriminate.
Qed.

(** C5 fails as stated.  With the alpha [1] given twice, both share the
    key ["1"]: the accumulated score of [A] is [1], its largest distance
    is [2] and the divisor is [3/2], yet the score becomes [4/9], not
    [2/3].  And a node whose only observed distance is [0] has its score
    divided by the empty sum. *)
Lemma normalization_counterexample :
  (exists acc res',
      accumulate sample_graph "A" (shells_of (get_default [] sample_distances "A"))
                 [["labels"]] [1; 1] None
                 (init_scores sample_graph [["labels"]] [1; 1]) = Ok acc
      /\ score acc "1" "labels" "A" = Some 1%Q
      /\ list_max (keys (shells_of (get_default [] sample_distances "A"))) = 2%nat
      /\ norm 1 2 = 3 # 2
      /\ node_step sample_graph sample_distances [["labels"]] [1; 1] None
                    (init_scores sample_graph [["labels"]] [1; 1]) "A" = Ok res'
      /\ score res' "1" "labels" "A" = Some (4 # 9)
      /\ Some (4 # 9) <> Some (Qred (1 / norm 1 2)))
  /\ (exists res,
         snd (delta_conformity sample_dg 1 5 [1; 1] ["labels"] 1 None "fastest") = Ok res
         /\ score res "1" "labels" "A" = Some (4 # 9))
  /\ node_step sample_graph zero_distances [["labels"]] [1] None
                (init_scores sample_graph [["labels"]] [1]) "A"
      = Raise ZeroDivisionError.
Proof.
  split; [|split].
  - do 2 eexists. repeat (split; [reflexivity|]). discriminate.
  - eexists. split; reflexivity.
  - reflexivity.
Qed.

(** ** The theorems at work on the example *)

Lemma sliding_1357_witness :
  temporal_snapshots_ids sample_dg = [1; 3; 5; 7]
  /\ exists s,
      sliding_delta_conformity sample_dg 5 [1] ["labels"] 1 None "fastest"
      = ([TemporalSnapshotsIds; TimeSlice 1 6; AllTimeRespectingPaths 1 6], Ok s)
      /\ forall a p n, series_at s a p n = point 6 (score sample_scores a p n).
Proof.
  split; [reflexivity|].
  apply (proj1 (sliding_1357 sample_dg [1] ["labels"] 1 None "fastest" eq_refl)).
  reflexivity.
Defined.

Example zero_degree_candidate_raises_example :
  neighbors isolated_graph "Z" = Ok []
  /\ homogeneity isolated_graph "Z" "labels" = Raise ZeroDivisionError
  /\ exists e, label_frequency isolated_graph "A" ["Z"] ["labels"] None = Raise e.
Proof.
  split; [reflexivity|].
  destruct (proj1 (zero_degree_candidate_raises
                     isolated_graph "A" "Z" ["Z"] "labels" [] None) eq_refl)
    as [Hw Hr].
  split; [exact Hw|]. apply Hr. simpl. left. reflexivity.
Defined.

Lemma delta_conformity_invalid_argument_witness :
  2 > Z.of_nat (List.length ["labels"])
  /\ delta_conformity sample_dg 1 5 [1] ["labels"] 2 None "fastest"
     = ([], Raise ValueError).
Proof.
  split; [simpl; lia|].
  apply delta_conformity_invalid_argument. left. simpl. lia.
Defined.

Lemma every_node_scored_witness :
  delta_conformity sample_dg 1 5 [1] ["labels"] 1 None "fastest"
  = ([TimeSlice 1 6; AllTimeRespectingPaths 1 6], Ok sample_scores)
  /\ (exists x, score sample_scores (str 1) (join ["labels"]) "B" = Some x)
  /\ score sample_scores (str 1) (join ["labels"]) "C" = Some 0%Q.
Proof.
  split; [reflexivity|]. split.
  - apply (every_node_scored sample_dg 1 5 [1] ["labels"] 1 None "fastest"
                             [TimeSlice 1 6; AllTimeRespectingPaths 1 6] sample_scores).
    + reflexivity.
    + simpl. left. reflexivity.
    + simpl. left. reflexivity.
    + simpl. right. left. reflexivity.
  - apply (every_node_scored sample_dg 1 5 [1] ["labels"] 1 None "fastest"
                             [TimeSlice 1 6; AllTimeRespectingPaths 1 6] sample_scores).
    + reflexivity.
    + simpl. left. reflexivity.
    + simpl. left. reflexivity.
    + simpl. right. right. left. reflexivity.
    + intros v ann d Hin. simpl in Hin.
      destruct Hin as [E|[E|[E|[E|[]]]]]; discriminate E.
Defined.

Lemma normalization_is_per_node_witness :
  exists res',
    node_step sample_graph sample_distances [["labels"]] [1] None
              (init_scores sample_graph [["labels"]] [1]) "A" = Ok res'
    /\ score res' (str 1) "labels" "A" = Some (Qred ((1 # 2) / norm 1 2)).
Proof.
  destruct (normalization_is_per_node
              sample_graph sample_distances [["labels"]] [1] None
              (init_scores sample_graph [["labels"]] [1]) sample_accumulated "A")
    as (res' & E & Hdiv & _).
  - repeat constructor. simpl. tauto.
  - vm_compute. lia.
  - apply init_scores_wf.
  - apply init_scores_ready. simpl. left. reflexivity.
  - reflexivity.
  - exists res'. split; [exact E|].
    apply (Hdiv 1 "labels" (1 # 2)); [simpl; left; reflexivity | reflexivity].
Defined.

Lemma agreement_indicator_witness :
  node_label sample_graph "B" "labels" = Ok "NO"
  /\ agreement sample_graph "SI" "B" "labels" None = Ok (-1)%Q.
Proof.
  split; [reflexivity|].
  apply (proj1 (proj2 (agreement_indicator sample_graph "SI" "NO" "B" "labels" None
                                           eq_refl))).
  - discriminate.
  - reflexivity.
Defined.

Lemma exact_match_similarity_witness :
  node_label sample_graph "C" "labels" = Ok "SI"
  /\ node_label sample_graph "A" "labels" = Ok "SI"
  /\ node_label sample_graph "D" "labels" = Ok "SI"
  /\ homogeneity sample_graph "A" "labels" = Ok (1 # 2)
  /\ homogeneity sample_graph "D" "labels" = Ok 1%Q
  /\ label_frequency sample_graph "C" ["A"; "D"] ["labels"] None = Ok (3 # 4).
Proof.
  do 5 (split; [reflexivity|]).
  apply (exact_match_similarity sample_graph "C" ["A"; "D"] "labels" None "SI"
                                [1 # 2; 1%Q]).
  - reflexivity.
  - reflexivity.
  - discriminate.
  - repeat constructor; simpl; intuition discriminate.
  - intros v [<-|[<-|[]]]; reflexivity.
  - repeat constructor.
Defined.

Lemma homogeneity_is_neighbour_fraction_witness :
  neighbors sample_graph "A" = Ok ["B"; "C"]
  /\ node_label sample_graph "A" "labels" = Ok "SI"
  /\ node_label sample_graph "B" "labels" = Ok "NO"
  /\ node_label sample_graph "C" "labels" = Ok "SI"
  /\ homogeneity sample_graph "A" "labels" = Ok (1 # 2)
  /\ homogeneity sample_graph "D" "labels" = Ok 1%Q.
Proof.
  do 4 (split; [reflexivity|]). split.
  - apply (homogeneity_is_neighbour_fraction sample_graph "A" "labels" "SI"
                                             ["B"; "C"] ["NO"; "SI"]).
    + reflexivity.
    + discriminate.
    + reflexivity.
    + repeat constructor.
  - apply (homogeneity_is_neighbour_fraction sample_graph "D" "labels" "SI"
                                             ["B"] ["NO"]).
    + reflexivity.
    + discriminate.
    + reflexivity.
    + repeat constructor.
Defined.


Lemma unranked_value_raises_witness :
  node_label sample_graph "B" "labels" = Ok "NO"
  /\ agreement sample_graph "SI" "B" "labels" partial_hierarchy = Raise KeyError.
Proof.
  split; [reflexivity|].
  refine (proj1 (proj1 (unranked_value_raises sample_graph "SI" "NO" "B" "labels"
                                              partial_hierarchy eq_refl _)
                       _ eq_refl _)).
  - discriminate.
  - right. reflexivity.
Defined.

Local Close Scope string_scope.

(* ================================================================== *)
(** * Further properties of the code *)

(** ** __distance *)

(** X1: [__distance] does not depend on the order of the two values:
    the same number, or the same exception, either way. *)
Theorem distance_symmetric (label : string) (v1 v2 : value) (h : Hierarchies) :
  distance label v1 v2 h = distance label v2 v1 h.
Proof.
  unfold distance. destruct h as [d|]; [|reflexivity].
  destruct (get d label) as [ranks|]; [|reflexivity].
  unfold getitem.
  destruct (get ranks v1) as [r1|], (get ranks v2) as [r2|]; cbn [bind];
    try reflexivity.
  now replace (Z.abs (r2 - r1)) with (Z.abs (r1 - r2)) by lia.
Qed.

(** X2: a hierarchy that ranks a single value makes [__distance] divide by
    [len(hierarchy) - 1 = 0] as soon as both lookups succeed. *)
Theorem distance_singleton_hierarchy
        (label : string) (v1 v2 : value) (h : Hierarchies)
        (ranks : Dict value Z) (r1 r2 : Z) :
  hierarchy_for h label = Some ranks -> List.length ranks = 1%nat ->
  get ranks v1 = Some r1 -> get ranks v2 = Some r2 ->
  distance label v1 v2 h = Raise ZeroDivisionError.
Proof.
  intros Hh Hlen E1 E2. rewrite (distance_hierarchy _ _ _ _ _ Hh).
  unfold getitem. rewrite E1, E2. cbn [bind]. now rewrite Hlen.
Qed.

(** ** __label_frequency *)

Lemma count_same_le (g : Graph) (v : node) (label : string) (ns : list node)
      (same : nat) :
  count_same g v label ns = Ok same -> (same <= List.length ns)%nat.
Proof.
  unfold count_same.
  assert (G : forall n0 n,
             for_each ns
               (fun n x =>
                  a_x <- node_label g x label ;;
                  a_v <- node_label g v label ;;
                  Ok (if String.eqb a_x a_v then S n else n)) n0 = Ok n ->
             (n <= n0 + List.length ns)%nat).
  { induction ns as [|x ns IH]; intros n0 n E; cbn [for_each] in E.
    - injection E as <-. cbn [List.length]. lia.
    - apply bind_Ok in E as (n1 & E1 & E2).
      apply bind_Ok in E1 as (a_x & _ & E1).
      apply bind_Ok in E1 as (a_v & _ & E1).
      apply IH in E2. cbn [List.length].
      destruct (String.eqb a_x a_v); injection E1 as <-; lia. }
  intros E. apply G in E. lia.
Qed.

Lemma homogeneity_range (g : Graph) (v : node) (label : string) (w : Q) :
  homogeneity g v label = Ok w -> (0 < w /\ w <= 1)%Q.
Proof.
  unfold homogeneity. intros E.
  apply bind_Ok in E as (ns & _ & E).
  apply bind_Ok in E as (same & Es & E).
  apply bind_Ok in E as (f & Ef & E).
  apply count_same_le in Es.
  pose proof (proj1 (py_div_Ok _ _ _) Ef) as [Hnz Hf].
  assert (Hlen : (0 < of_nat (List.length ns))%Q).
  { destruct (Qle_lt_or_eq _ _ (of_nat_nonneg (List.length ns))) as [Hlt|Heq];
      [exact Hlt | exfalso; apply Hnz; now symmetry]. }
  assert (Hle : (f <= 1)%Q).
  { rewrite Hf, Qred_correct. apply Qle_shift_div_r; [exact Hlen|].
    rewrite Qmult_1_l. unfold of_nat, Qle, inject_Z, Qnum, Qden. lia. }
  destruct (Qle_bool f 0) eqn:E0; injection E as <-.
  - split; [reflexivity | apply Qle_refl].
  - split; [|exact Hle].
    apply Qnot_le_lt. intros Hneg. apply Qle_bool_iff in Hneg. congruence.
Qed.

(** X3: whenever it is computed, the local homogeneity weight is positive
    and at most [1]: the fraction of agreeing neighbours, or [1] in its
    place. *)
Theorem homogeneity_bounds (g : Graph) (v : node) (label : string) (w : Q) :
  homogeneity g v label = Ok w -> (0 < w)%Q /\ (w <= 1)%Q.
Proof.
  intros E. destruct (homogeneity_range g v label w E) as [H0 H1]. now split.
Qed.

(** The scorer never returns on an empty candidate list when the profile
    has a label: the mean over the shell divides by [len(nodes) = 0],
    unless reading the label of the source fails first. *)
Lemma label_frequency_empty_shell
        (g : Graph) (u : node) (label : string) (labels : list string)
        (h : Hierarchies) :
  label_frequency g u [] (label :: labels) h
  = match node_label g u label with
    | Ok _ => Raise ZeroDivisionError
    | Raise e => Raise e
    end.
Proof.
  unfold label_frequency. cbn [for_each]. unfold label_step at 1.
  destruct (node_label g u label); reflexivity.
Qed.

Lemma Qabs_le_1_mult (a b : Q) :
  (Qabs a <= 1)%Q -> (Qabs b <= 1)%Q -> (Qabs (a * b) <= 1)%Q.
Proof.
  intros Ha Hb. rewrite Qabs_Qmult.
  setoid_replace 1%Q with (1 * 1)%Q by ring.
  apply Qmult_le_compat_nonneg; split; auto using Qabs_nonneg.
Qed.

Lemma Qabs_py_mul (a b : Q) :
  (Qabs a <= 1)%Q -> (Qabs b <= 1)%Q -> (Qabs (py_mul a b) <= 1)%Q.
Proof.
  intros Ha Hb. unfold py_mul. rewrite Qred_correct. now apply Qabs_le_1_mult.
Qed.

Lemma py_sum_total (xs : list Q) : (py_sum xs == total xs)%Q.
Proof.
  unfold py_sum. rewrite fold_left_py_add_total. ring.
Qed.

Lemma of_nat_S (n : nat) : (of_nat (S n) == 1 + of_nat n)%Q.
Proof.
  unfold of_nat, Qeq, Qplus, inject_Z, Qnum, Qden. lia.
Qed.

Lemma of_nat_le (n m : nat) : (n <= m)%nat -> (of_nat n <= of_nat m)%Q.
Proof.
  intros H. unfold of_nat, Qle, inject_Z, Qnum, Qden. lia.
Qed.

Lemma Qabs_total_le (xs : list Q) :
  Forall (fun x => Qabs x <= 1)%Q xs -> (Qabs (total xs) <= of_nat (List.length xs))%Q.
Proof.
  induction 1 as [|x xs Hx _ IH]; cbn [total fold_right List.length].
  - apply Qle_refl.
  - fold (total xs). rewrite of_nat_S.
    eapply Qle_trans; [apply Qabs_triangle|].
    now apply Qplus_le_compat.
Qed.

(** With ranks kept within the size of their hierarchy, the agreement
    indicator stays within [[-1, 1]]. *)
Lemma agreement_bounded (g : Graph) (a_u : value) (v : node) (label : string)
      (h : Hierarchies) (x : Q) :
  bounded_ranks h -> agreement g a_u v label h = Ok x -> (Qabs x <= 1)%Q.
Proof.
  intros Hb E. unfold agreement in E.
  apply bind_Ok in E as (a_v & Ev & E).
  destruct (String.eqb_spec a_u a_v) as [_|Hne].
  - injection E as <-. apply Qle_refl.
  - rewrite Ev in E. cbn [bind] in E.
    destruct (hierarchy_for h label) as [ranks|] eqn:Hh.
    + rewrite (distance_hierarchy _ _ _ _ _ Hh) in E.
      apply bind_Ok in E as (r1 & E1 & E).
      apply bind_Ok in E as (r2 & E2 & E).
      unfold getitem in E1, E2.
      destruct (get ranks a_u) as [r1'|] eqn:G1; [|discriminate].
      destruct (get ranks a_v) as [r2'|] eqn:G2; [|discriminate].
      injection E1 as ->. injection E2 as ->.
      pose proof (proj1 (py_div_Ok _ _ _) E) as [_ ->].
      pose proof (two_keys_length _ _ _ _ _ Hne G1 G2) as Hsz.
      destruct (graded_penalty_bounds r1 r2 (List.length ranks) Hsz) as [Hle Hge].
      apply Qabs_Qle_condition. split.
      * apply Hge. eapply Hb; eassumption.
      * eapply Qle_trans; [exact Hle|]. discriminate.
    + rewrite (distance_no_hierarchy _ _ _ _ Hh) in E. injection E as <-.
      apply Qle_refl.
Qed.

Lemma length_setitem_le {K V : Type} `{Key K} (d : Dict K V) (k : K) (v : V) :
  (List.length (setitem d k v) <= S (List.length d))%nat.
Proof.
  induction d as [|[k0 v0] d IH]; cbn [setitem List.length]; [lia|].
  destruct (keqb k0 k); cbn [List.length]; lia.
Qed.

Lemma Forall_values_setitem {K V : Type} `{Key K} (P : V -> Prop)
      (d : Dict K V) (k : K) (v : V) :
  Forall P (values d) -> P v -> Forall P (values (setitem d k v)).
Proof.
  intros Hd Hv. induction d as [|[k0 v0] d IH]; cbn [setitem values map].
  - now repeat constructor.
  - inversion Hd as [|? ? H0 Hd']; subst.
    destruct (keqb k0 k); cbn [values map]; constructor; auto.
Qed.

(** The dict [sgn] holds at most one entry per candidate, each within
    [[-1, 1]]. *)
Lemma sgn_bounded (g : Graph) (a_u : value) (label : string) (h : Hierarchies)
      (candidates : list node) :
  bounded_ranks h ->
  forall sgn0 sgn,
    for_each candidates (candidate_step g a_u label h) sgn0 = Ok sgn ->
    Forall (fun x => Qabs x <= 1)%Q (values sgn0) ->
    Forall (fun x => Qabs x <= 1)%Q (values sgn)
    /\ (List.length sgn <= List.length sgn0 + List.length candidates)%nat.
Proof.
  intros Hb. induction candidates as [|v candidates IH]; intros sgn0 sgn E H0;
    cbn [for_each] in E.
  - injection E as <-. split; [exact H0 | lia].
  - apply bind_Ok in E as (sgn1 & E1 & E2).
    unfold candidate_step in E1.
    apply bind_Ok in E1 as (sgn_v & Ea & E1).
    apply bind_Ok in E1 as (f & Ef & E1). injection E1 as <-.
    apply (agreement_bounded _ _ _ _ _ _ Hb) in Ea.
    apply homogeneity_range in Ef as [Hf0 Hf1].
    destruct (IH _ _ E2) as [Hv Hl].
    + apply Forall_values_setitem; [exact H0|].
      apply Qabs_py_mul; [exact Ea|].
      rewrite Qabs_pos by now apply Qlt_le_weak. exact Hf1.
    + split; [exact Hv|].
      pose proof (length_setitem_le sgn0 v (py_mul sgn_v f)). cbn [List.length]. lia.
Qed.

Lemma label_frequency_abs (g : Graph) (u : node) (candidates : list node)
      (labels : list string) (h : Hierarchies) (s : Q) :
  bounded_ranks h ->
  label_frequency g u candidates labels h = Ok s -> (Qabs s <= 1)%Q.
Proof.
  intros Hb E. revert E.
  unfold label_frequency.
  apply (for_each_invariant (fun s : Q => Qabs s <= 1)%Q); [|apply Qle_refl].
  intros s0 label s1 _ Hs0 E. unfold label_step in E.
  apply bind_Ok in E as (a_u & _ & E).
  apply bind_Ok in E as (sgn & Esgn & E).
  apply bind_Ok in E as (avg & Eavg & E). injection E as <-.
  destruct (sgn_bounded g a_u label h candidates Hb [] sgn Esgn) as [Hv Hl];
    [constructor|].
  pose proof (proj1 (py_div_Ok _ _ _) Eavg) as [Hnz ->].
  apply Qabs_py_mul; [exact Hs0|].
  assert (Hlen : (0 < of_nat (List.length candidates))%Q).
  { destruct (Qle_lt_or_eq _ _ (of_nat_nonneg (List.length candidates))) as [Hlt|Heq];
      [exact Hlt | exfalso; apply Hnz; now symmetry]. }
  rewrite Qred_correct. unfold Qdiv. rewrite Qabs_Qmult, Qabs_Qinv.
  rewrite (Qabs_pos (of_nat _)) by apply of_nat_nonneg.
  apply Qle_shift_div_r; [exact Hlen|]. rewrite Qmult_1_l.
  rewrite py_sum_total.
  eapply Qle_trans; [apply Qabs_total_le; exact Hv|].
  apply of_nat_le. unfold values. rewrite length_map. cbn [List.length] in Hl. lia.
Qed.

(** X4: with ranks kept within the size of their hierarchy (in
    particular without hierarchies), the similarity that the scorer
    returns lies in [[-1, 1]], as its docstring says. *)
Theorem label_frequency_bounded
        (g : Graph) (u : node) (candidates : list node) (labels : list string)
        (h : Hierarchies) (s : Q) :
  bounded_ranks h ->
  label_frequency g u candidates labels h = Ok s ->
  (-1 <= s)%Q /\ (s <= 1)%Q.
Proof.
  intros Hb E. apply (proj1 (Qabs_Qle_condition s 1)).
  eapply label_frequency_abs; eassumption.
Qed.

(** ** Profiles *)

Lemma Subseq_nil_l {A : Type} (xs : list A) : Subseq [] xs.
Proof. induction xs; constructor; assumption. Qed.

Lemma combinations_spec {A : Type} (xs : list A) :
  forall (r : nat) (p : list A),
    In p (combinations xs r) <-> Subseq p xs /\ List.length p = r.
Proof.
  induction xs as [|x xs IH]; intros r p.
  - destruct r; cbn [combinations In].
    + split.
      * intros [<-|[]]. split; [constructor | reflexivity].
      * intros [Hs _]. inversion Hs. now left.
    + split; [intros [] | intros [Hs Hl]]. inversion Hs; subst. discriminate.
  - destruct r; cbn [combinations].
    + split.
      * intros [<-|[]]. split; [apply Subseq_nil_l | reflexivity].
      * intros [_ Hl]. destruct p; [now left | discriminate].
    + rewrite in_app_iff, in_map_iff. split.
      * intros [(q & <- & Hq)|Hp].
        -- apply IH in Hq as [Hs <-]. split; [now constructor | reflexivity].
        -- apply IH in Hp as [Hs Hl]. split; [now constructor | exact Hl].
      * intros [Hs Hl]. inversion Hs as [|y q ys Hq|y q ys Hq]; subst.
        -- right. apply IH. now split.
        -- left. exists q. split; [reflexivity|]. apply IH. split; [exact Hq|].
           cbn [List.length] in Hl. lia.
Qed.

(** X5: the profiles of [delta_conformity] are exactly the non-empty
    selections of at most [profile_size] labels, taken in the order of
    [labels]; in particular there is none when [profile_size <= 0]. *)
Theorem make_profiles_spec (labels : list string) (profile_size : Z)
        (p : list string) :
  In p (make_profiles labels profile_size) <->
  Subseq p labels /\ (1 <= List.length p)%nat /\ Z.of_nat (List.length p) <= profile_size.
Proof.
  unfold make_profiles. rewrite in_flat_map. split.
  - intros (r & Hr & Hp). apply in_seq in Hr. apply combinations_spec in Hp as [Hs <-].
    split; [exact Hs|]. lia.
  - intros (Hs & H1 & H2). exists (List.length p). split.
    + apply in_seq. lia.
    + apply combinations_spec. now split.
Qed.

(** ** Shells *)

Lemma shells_of_NoDup (sp : Dict node nat) : NoDup (keys (shells_of sp)).
Proof.
  unfold shells_of.
  assert (G : forall acc : Dict nat (list node),
             NoDup (keys acc) ->
             NoDup (keys (fold_left
                            (fun dist_to_nodes kv =>
                               let '(nd, dist) := kv in
                               setitem dist_to_nodes dist
                                       (get_default [] dist_to_nodes dist ++ [nd]))
                            sp acc))).
  { induction sp as [|[nd dist] sp IH]; intros acc Hacc; cbn [fold_left];
      [exact Hacc|].
    apply IH. now apply NoDup_keys_setitem. }
  apply G. constructor.
Qed.

Lemma shells_of_member (sp : Dict node nat) (v : node) (d : nat) :
  (exists ns, get (shells_of sp) d = Some ns /\ In v ns) <-> In (v, d) sp.
Proof.
  unfold shells_of.
  assert (G : forall acc : Dict nat (list node),
             (exists ns,
                 get (fold_left
                        (fun dist_to_nodes kv =>
                           let '(nd, dist) := kv in
                           setitem dist_to_nodes dist
                                   (get_default [] dist_to_nodes dist ++ [nd]))
                        sp acc) d = Some ns /\ In v ns)
             <-> (exists ns, get acc d = Some ns /\ In v ns) \/ In (v, d) sp).
  { induction sp as [|[nd dist] sp IH]; intros acc; cbn [fold_left In].
    - tauto.
    - rewrite IH.
      assert (Hstep : (exists ns,
                          get (setitem acc dist (get_default [] acc dist ++ [nd])) d
                          = Some ns /\ In v ns)
                      <-> (exists ns, get acc d = Some ns /\ In v ns)
                          \/ (nd, dist) = (v, d)).
      { rewrite get_setitem. destruct (keqb_spec dist d) as [->|Hne].
        - unfold get_default. split.
          + intros (ns & [= <-] & Hin). apply in_app_iff in Hin as [Hin|[->|[]]].
            * left. destruct (get acc d) as [old|]; [eauto | destruct Hin].
            * now right.
          + intros [(ns & E & Hin)|[= ->]].
            * rewrite E. eexists. split; [reflexivity|]. apply in_app_iff. now left.
            * eexists. split; [reflexivity|]. apply in_app_iff. right. now left.
        - split; [intros H; now left|]. intros [H|[= _ E]]; [exact H | congruence]. }
      rewrite Hstep. tauto. }
  rewrite G. split; [intros [(ns & [=] & _)|H]; exact H | now right].
Qed.

(** X6: the shells of a node group its targets by distance: a target is
    in the shell of [d] exactly when its distance is [d]; every shell is a
    non-empty list of distinct nodes, and no distance has two shells. *)
Theorem shells_group_by_distance
        (sp : list ((node * node) * Annotated)) (path_type : string)
        (distances : Dict node (Dict node nat)) (u : node) :
  build_distances sp path_type = Ok distances ->
  let shells := shells_of (get_default [] distances u) in
  (forall v d, get (get_default [] distances u) v = Some d <->
               exists ns, get shells d = Some ns /\ In v ns)
  /\ (forall d ns, In (d, ns) shells -> ns <> [] /\ NoDup ns)
  /\ NoDup (keys shells).
Proof.
  intros Ed shells. pose proof (build_distances_NoDup _ _ _ Ed u) as Hnd.
  split; [|split].
  - intros v d. unfold shells. rewrite shells_of_member. split.
    + apply get_In.
    + now apply In_get_NoDup.
  - now apply shells_of_distinct.
  - apply shells_of_NoDup.
Qed.

(** ** A node seen at distance [0] only *)

Lemma list_max_zero (ds : list nat) :
  (forall d, In d ds -> d = 0%nat) -> list_max ds = 0%nat.
Proof.
  induction ds as [|d ds IH]; intros Hz; cbn [list_max fold_right]; [reflexivity|].
  fold (list_max ds). rewrite IH by (intros d' Hd'; apply Hz; now right).
  rewrite (Hz d) by now left. reflexivity.
Qed.

(** X7: when every distance observed from [u] is [0] (and there is one),
    nothing is accumulated and the divisor is the empty sum [0]: dividing
    the first score of [u] raises [ZeroDivisionError]. *)
Theorem node_step_zero_distance
        (g : Graph) (distances : Dict node (Dict node nat))
        (profiles : list (list string)) (a : Z) (alphas : list Z)
        (h : Hierarchies) (res : Scores) (u : node)
        (p : string) (by_node : Dict node Q) (by_profile : Dict string (Dict node Q))
        (x : Q) :
  let shells := shells_of (get_default [] distances u) in
  shells <> [] -> (forall d, In d (keys shells) -> d = 0%nat) ->
  get res (str a) = Some ((p, by_node) :: by_profile) ->
  get by_node u = Some x ->
  node_step g distances profiles (a :: alphas) h res u = Raise ZeroDivisionError.
Proof.
  intros shells Hne Hz Ea Eu. unfold node_step. fold shells.
  rewrite (accumulate_zero_shells _ _ _ _ _ _ _ Hz). cbn [bind].
  destruct shells as [|s0 shells'] eqn:Es; [congruence|].
  cbn [List.length Nat.ltb Nat.leb]. rewrite (list_max_zero _ Hz).
  unfold normalize. cbn [for_each]. unfold getitem at 1. rewrite Ea. cbn [bind keys map fst for_each].
  unfold update_score, getitem. rewrite Ea. cbn [bind get].
  rewrite keqb_refl. cbn [bind]. rewrite Eu. reflexivity.
Qed.

(** ** delta_conformity as a whole *)

(** Once the arguments are valid, [delta_conformity] slices the window,
    asks the oracle for the paths of the same window and goes on with what
    both return. *)
Lemma delta_conformity_valid (dg : DynGraph) (start delta : Z) (alphas : list Z)
      (labels : list string) (profile_size : Z) (h : Hierarchies)
      (path_type : string) :
  profile_size <= Z.of_nat (List.length labels) -> alphas <> [] -> labels <> [] ->
  let g := time_slice dg start (start + delta) in
  let profiles := make_profiles labels profile_size in
  delta_conformity dg start delta alphas labels profile_size h path_type
  = ([TimeSlice start (start + delta); AllTimeRespectingPaths start (delta + start)],
     distances <- build_distances (all_time_respecting_paths dg g start (delta + start))
                                  path_type ;;
     for_each (nodes g) (node_step g distances profiles alphas h)
              (init_scores g profiles alphas)).
Proof.
  intros Hps Ha Hl g profiles. unfold delta_conformity.
  replace (Z.of_nat (List.length labels) <? profile_size) with false
    by (symmetry; apply Z.ltb_ge; lia).
  replace ((Z.of_nat (List.length alphas) <? 1) || (Z.of_nat (List.length labels) <? 1))
    with false.
  2:{ symmetry. apply orb_false_iff. split; apply Z.ltb_ge.
      - destruct alphas; [congruence | cbn [List.length]; lia].
      - destruct labels; [congruence | cbn [List.length]; lia]. }
  cbn [call io_bind]. fold g.
  destruct (value_frequency_returns g) as (df & ->).
  reflexivity.
Qed.


Lemma build_distances_KeyError (sp : list ((node * node) * Annotated))
      (path_type : string) (k : node * node) (ann : Annotated) :
  In (k, ann) sp -> get ann path_type = None ->
  build_distances sp path_type = Raise KeyError.
Proof.
  intros Hin Hnone. unfold build_distances.
  match goal with |- for_each _ ?b _ = _ => set (body := b) end.
  assert (G : forall ds, for_each sp body ds = Raise KeyError); [|apply G].
  induction sp as [|kv sp IH]; [destruct Hin|]. intros ds. cbn [for_each].
  destruct Hin as [->|Hin].
  - unfold body at 1. destruct k as [k0 k1]. unfold getitem. now rewrite Hnone.
  - destruct (body ds kv) as [ds'|e] eqn:Eb; cbn [bind]; [now apply IH|].
    unfold body in Eb. destruct kv as [[k0 k1] ann0]. unfold getitem in Eb.
    destruct (get ann0 path_type); cbn [bind] in Eb; [discriminate|].
    now injection Eb as <-.
Qed.

(** X9: a [path_type] that the annotation of some reported pair does not
    know makes [delta_conformity] raise [KeyError], after both calls. *)
Theorem delta_conformity_unknown_path_type
        (dg : DynGraph) (start delta : Z) (alphas : list Z) (labels : list string)
        (profile_size : Z) (h : Hierarchies) (path_type : string)
        (k : node * node) (ann : Annotated) :
  profile_size <= Z.of_nat (List.length labels) -> alphas <> [] -> labels <> [] ->
  In (k, ann) (all_time_respecting_paths dg (time_slice dg start (start + delta))
                                         start (delta + start)) ->
  get ann path_type = None ->
  delta_conformity dg start delta alphas labels profile_size h path_type
  = ([TimeSlice start (start + delta); AllTimeRespectingPaths start (delta + start)],
     Raise KeyError).
Proof.
  intros Hps Ha Hl Hin Hnone. rewrite delta_conformity_valid by assumption.
  now rewrite (build_distances_KeyError _ _ _ _ Hin Hnone).
Qed.

Lemma for_each_fixed {A S : Type} (xs : list A) (body : S -> A -> result S) (s : S) :
  (forall x, In x xs -> body s x = Ok s) -> for_each xs body s = Ok s.
Proof.
  induction xs as [|x xs IH]; intros Hb; cbn [for_each]; [reflexivity|].
  rewrite Hb by now left. cbn [bind]. apply IH. intros y Hy. apply Hb. now right.
Qed.

(** X10: when the oracle reports no pair at all, [delta_conformity]
    returns, whatever [path_type] is, and every score is the initial
    [0]. *)
Theorem delta_conformity_no_paths
        (dg : DynGraph) (start delta : Z) (alphas : list Z) (labels : list string)
        (profile_size : Z) (h : Hierarchies) (path_type : string) :
  profile_size <= Z.of_nat (List.length labels) -> alphas <> [] -> labels <> [] ->
  let g := time_slice dg start (start + delta) in
  all_time_respecting_paths dg g start (delta + start) = [] ->
  delta_conformity dg start delta alphas labels profile_size h path_type
  = ([TimeSlice start (start + delta); AllTimeRespectingPaths start (delta + start)],
     Ok (init_scores g (make_profiles labels profile_size) alphas)).
Proof.
  intros Hps Ha Hl g Hsp. rewrite delta_conformity_valid by assumption.
  fold g. rewrite Hsp. cbn [build_distances for_each bind].
  now rewrite for_each_fixed.
Qed.

Lemma init_scores_no_profiles (g : Graph) (alphas : list Z) (a : Z) :
  In a alphas -> get (init_scores g [] alphas) (str a) = Some [].
Proof.
  intros Ha. unfold init_scores.
  exact (dict_comp_get_const str [] alphas a Ha).
Qed.

Lemma node_step_no_profiles (g : Graph) (distances : Dict node (Dict node nat))
      (alphas : list Z) (h : Hierarchies) (res : Scores) (u : node) :
  (forall a, In a alphas -> get res (str a) = Some []) ->
  node_step g distances [] alphas h res u = Ok res.
Proof.
  intros Hres. unfold node_step.
  assert (Hacc : forall shells, accumulate g u shells [] alphas h res = Ok res).
  { intros shells. unfold accumulate. apply for_each_fixed.
    intros [d ns] _. cbn [shell_step]. now destruct (Nat.eqb d 0). }
  rewrite Hacc. cbn [bind]. destruct (0 <? _)%nat; [|reflexivity].
  unfold normalize. apply for_each_fixed. intros a Ha.
  unfold getitem. now rewrite (Hres a Ha).
Qed.

(** X11: a [profile_size] of [0] or less is not rejected: there is no
    profile, and [delta_conformity] returns, for every alpha, an empty
    dict (provided [path_type] is known to the oracle's annotations). *)
Theorem delta_conformity_no_profiles
        (dg : DynGraph) (start delta : Z) (alphas : list Z) (labels : list string)
        (profile_size : Z) (h : Hierarchies) (path_type : string)
        (distances : Dict node (Dict node nat)) :
  profile_size <= 0 -> alphas <> [] -> labels <> [] ->
  let g := time_slice dg start (start + delta) in
  build_distances (all_time_respecting_paths dg g start (delta + start)) path_type
  = Ok distances ->
  exists res,
    delta_conformity dg start delta alphas labels profile_size h path_type
    = ([TimeSlice start (start + delta); AllTimeRespectingPaths start (delta + start)],
       Ok res)
    /\ forall a, In a alphas -> get res (str a) = Some [].
Proof.
  intros Hps Ha Hl g Ed.
  exists (init_scores g [] alphas). split.
  - rewrite delta_conformity_valid by (try assumption; lia).
    fold g. rewrite Ed. cbn [bind].
    assert (Hp : make_profiles labels profile_size = []).
    { unfold make_profiles. replace (Z.to_nat profile_size) with 0%nat by lia.
      reflexivity. }
    rewrite Hp. f_equal. apply for_each_fixed. intros u _.
    apply node_step_no_profiles. intros a. apply init_scores_no_profiles.
  - intros a. apply init_scores_no_profiles.
Qed.

(** ** The keys of the result *)

Lemma no_new_entries_refl (res : Scores) : no_new_entries res res.
Proof. intros a p n H. exact H. Qed.

Lemma no_new_entries_trans (r1 r2 r3 : Scores) :
  no_new_entries r1 r2 -> no_new_entries r2 r3 -> no_new_entries r1 r3.
Proof. intros H1 H2 a p n H. apply H1, H2, H. Qed.

Ltac by_loop_of_no_new_entries :=
  apply for_each_rel;
  [ apply no_new_entries_refl | apply no_new_entries_trans | ].

Lemma update_score_no_new (res res' : Scores) (a p : string) (u : node)
      (f : Q -> result Q) :
  update_score res a p u f = Ok res' -> no_new_entries res res'.
Proof.
  intros E. apply update_score_Ok in E as (x & y & Hx & _ & _ & Hoth & _).
  intros a' p' n' Hn.
  destruct (string_dec a' a) as [->|Ha]; [|rewrite <- Hoth; congruence].
  destruct (string_dec p' p) as [->|Hp]; [|rewrite <- Hoth; congruence].
  destruct (string_dec n' u) as [->|Hu]; [|rewrite <- Hoth; congruence].
  congruence.
Qed.

Lemma accumulate_no_new (g : Graph) (u : node) (shells : Dict nat (list node))
      (profiles : list (list string)) (alphas : list Z) (h : Hierarchies)
      (res res' : Scores) :
  accumulate g u shells profiles alphas h res = Ok res' -> no_new_entries res res'.
Proof.
  unfold accumulate. by_loop_of_no_new_entries.
  intros s [dist ns] s' _. cbn [shell_step].
  destruct (Nat.eqb dist 0); [intros [= <-]; apply no_new_entries_refl|].
  by_loop_of_no_new_entries.
  intros s1 profile s1' _ E. unfold profile_step in E.
  apply bind_Ok in E as (sim & _ & E). revert E.
  by_loop_of_no_new_entries.
  intros s2 alpha s2' _ E. unfold alpha_step in E.
  apply bind_Ok in E as (partial & _ & E).
  eapply update_score_no_new; eassumption.
Qed.

Lemma normalize_no_new (u : node) (scores res' : Scores) (max_dist : nat)
      (alphas : list Z) :
  normalize u scores max_dist alphas = Ok res' -> no_new_entries scores res'.
Proof.
  unfold normalize. by_loop_of_no_new_entries.
  intros s alpha s' _ E. apply bind_Ok in E as (by_profile & _ & E). revert E.
  by_loop_of_no_new_entries.
  intros s1 p s1' _. apply update_score_no_new.
Qed.

Lemma node_step_no_new (g : Graph) (distances : Dict node (Dict node nat))
      (profiles : list (list string)) (alphas : list Z) (h : Hierarchies)
      (res res' : Scores) (u : node) :
  node_step g distances profiles alphas h res u = Ok res' -> no_new_entries res res'.
Proof.
  unfold node_step. intros E. apply bind_Ok in E as (acc & Eacc & E).
  apply accumulate_no_new in Eacc.
  destruct (0 <? _)%nat.
  - apply normalize_no_new in E. eapply no_new_entries_trans; eassumption.
  - injection E as <-. exact Eacc.
Qed.

Lemma init_scores_keys (g : Graph) (profiles : list (list string))
      (alphas : list Z) (ka kp : string) (n : node) :
  score (init_scores g profiles alphas) ka kp n <> None ->
  exists a profile,
    In a alphas /\ In profile profiles /\ In n (nodes g)
    /\ ka = str a /\ kp = join profile.
Proof.
  unfold score, init_scores.
  destruct (get (dict_comp str _ alphas) ka) as [bp|] eqn:Ea; [|congruence].
  pose proof (get_Some_keys _ _ _ Ea) as Hka.
  apply dict_comp_keys, in_map_iff in Hka as (a & <- & Ha).
  apply dict_comp_const in Ea. subst bp.
  destruct (get (dict_comp join _ profiles) kp) as [bn|] eqn:Ep; [|congruence].
  pose proof (get_Some_keys _ _ _ Ep) as Hkp.
  apply dict_comp_keys, in_map_iff in Hkp as (profile & <- & Hp).
  apply dict_comp_const in Ep. subst bn.
  intros Hn. destruct (get (dict_comp _ _ (nodes g)) n) as [x|] eqn:En; [|congruence].
  apply get_Some_keys, dict_comp_keys, in_map_iff in En as (n' & <- & Hn').
  exists a, profile. auto.
Qed.

(** X12: the result of [delta_conformity] has an entry under two keys and
    a node exactly when the keys are [str(alpha)] of a requested alpha and
    the joined name of a generated profile, and the node is in the
    snapshot: nothing is missing and nothing is added. *)
Theorem delta_conformity_keys
        (dg : DynGraph) (start delta : Z) (alphas : list Z) (labels : list string)
        (profile_size : Z) (h : Hierarchies) (path_type : string)
        (tr : list event) (res : Scores) :
  delta_conformity dg start delta alphas labels profile_size h path_type
  = (tr, Ok res) ->
  forall ka kp n,
    score res ka kp n <> None <->
    exists a profile,
      In a alphas /\ In profile (make_profiles labels profile_size)
      /\ In n (nodes (time_slice dg start (start + delta)))
      /\ ka = str a /\ kp = join profile.
Proof.
  intros E ka kp n. apply delta_conformity_Ok in E as (_ & distances & _ & E).
  split.
  - intros Hs. apply init_scores_keys.
    assert (Hno : no_new_entries
                    (init_scores (time_slice dg start (start + delta))
                                 (make_profiles labels profile_size) alphas) res).
    { revert E. by_loop_of_no_new_entries.
      intros s u s' _. apply node_step_no_new. }
    now apply Hno.
  - intros (a & profile & Ha & Hp & Hn & -> & ->).
    assert (Hpres : preserves (init_scores (time_slice dg start (start + delta))
                                           (make_profiles labels profile_size) alphas) res).
    { revert E. apply for_each_rel.
      - apply preserves_refl.
      - apply preserves_trans.
      - intros s u s' _ Es. now apply node_step_touches in Es as [Hpr _]. }
    apply (pres_domain _ _ Hpres). rewrite init_scores_zero by assumption. discriminate.
Qed.

(** ** The range of the conformity scores *)

Lemma total_app (xs ys : list Q) : (total (xs ++ ys) == total xs + total ys)%Q.
Proof.
  induction xs as [|x xs IH].
  - change (total ([] ++ ys)) with (total ys). change (total []) with 0%Q. ring.
  - change (total ((x :: xs) ++ ys)) with (x + total (xs ++ ys))%Q.
    change (total (x :: xs)) with (x + total xs)%Q. rewrite IH. ring.
Qed.

Lemma terms_for_app (ka kp : string) (ts1 ts2 : list term) :
  terms_for ka kp (ts1 ++ ts2) = terms_for ka kp ts1 ++ terms_for ka kp ts2.
Proof.
  unfold terms_for. now rewrite filter_app, map_app.
Qed.

Lemma terms_for_nil (ka kp : string) (ts : list term) :
  (forall t, In t ts -> fst (fst t) <> ka \/ snd (fst t) <> kp) ->
  terms_for ka kp ts = [].
Proof.
  induction ts as [|t ts IH]; intros Hk; [reflexivity|].
  rewrite terms_for_cons.
  destruct (Hk t (or_introl eq_refl)) as [Hne|Hne]; apply String.eqb_neq in Hne;
    rewrite Hne, ?andb_false_r; cbn [andb]; apply IH; intros t' Ht'; apply Hk;
    now right.
Qed.

Lemma collect_Forall {A B : Type} (P : B -> Prop) (f : A -> result (list B))
      (xs : list A) :
  (forall x ys, In x xs -> f x = Ok ys -> Forall P ys) ->
  forall ts, collect f xs = Ok ts -> Forall P ts.
Proof.
  induction xs as [|x xs IH]; intros Hf ts E; cbn [collect] in E.
  - injection E as <-. constructor.
  - apply bind_Ok in E as (ys & Ey & E). apply bind_Ok in E as (zs & Ez & [= <-]).
    apply Forall_app. split.
    + eapply Hf; [now left | exact Ey].
    + apply IH; [|exact Ez]. intros x' ys' Hx'. apply Hf. now right.
Qed.

Lemma py_pow_opp (d : nat) (a : Z) :
  (py_pow (Z.of_nat d) (- a) == / py_pow (Z.of_nat d) a)%Q.
Proof.
  unfold py_pow. rewrite !Qred_correct. apply Qpower_opp.
Qed.

(** One term [sim / dist ** alpha] weighs at most [dist ** -alpha]. *)
Lemma term_bounded (d : nat) (a : Z) (sim x : Q) :
  (1 <= d)%nat -> (Qabs sim <= 1)%Q ->
  py_div sim (py_pow (Z.of_nat d) a) = Ok x ->
  (Qabs x <= py_pow (Z.of_nat d) (- a))%Q.
Proof.
  intros Hd Hsim E. pose proof (proj1 (py_div_Ok _ _ _) E) as [_ ->].
  pose proof (py_pow_pos d a Hd) as Hpos.
  rewrite Qred_correct, py_pow_opp. unfold Qdiv.
  rewrite Qabs_Qmult, Qabs_Qinv, (Qabs_pos (py_pow _ _)) by now apply Qlt_le_weak.
  setoid_replace (/ py_pow (Z.of_nat d) a)%Q
    with (1 * / py_pow (Z.of_nat d) a)%Q at 2 by ring.
  apply Qmult_le_compat_r; [exact Hsim|].
  apply Qlt_le_weak. now apply Qinv_lt_0_compat.
Qed.

Lemma alpha_terms_keys (d : nat) (p : list string) (sim : Q) (alphas : list Z)
      (ts : list term) :
  collect (alpha_term d p sim) alphas = Ok ts ->
  Forall (fun t : term => In (fst (fst t)) (map str alphas) /\ snd (fst t) = join p) ts.
Proof.
  apply collect_Forall. intros alpha ys Ha E. unfold alpha_term in E.
  apply bind_Ok in E as (partial & _ & [= <-]).
  repeat constructor. cbn [fst]. now apply in_map.
Qed.

(** Under the keys of one alpha, the terms of one shell and one profile
    weigh at most [dist ** -alpha]. *)
Lemma alpha_terms_bounded (d : nat) (p : list string) (sim : Q) (a : Z) (kp : string) :
  (1 <= d)%nat -> (Qabs sim <= 1)%Q ->
  forall alphas ts,
    NoDup alphas ->
    collect (alpha_term d p sim) alphas = Ok ts ->
    (Qabs (total (terms_for (str a) kp ts)) <= py_pow (Z.of_nat d) (- a))%Q.
Proof.
  intros Hd Hsim. pose proof (py_pow_pos d (- a) Hd) as Hpos.
  induction alphas as [|a1 alphas IH]; intros ts Hnd E; cbn [collect] in E.
  - injection E as <-. now apply Qlt_le_weak.
  - inversion Hnd as [|? ? Hfresh Hnd']; subst.
    apply bind_Ok in E as (t1 & E1 & E). apply bind_Ok in E as (ts' & E' & [= <-]).
    unfold alpha_term in E1. apply bind_Ok in E1 as (x1 & Ex1 & [= <-]).
    cbn [app]. rewrite terms_for_cons. cbn [fst snd].
    destruct (String.eqb_spec (str a1) (str a)) as [Ea|Hne]; cbn [andb];
      [|now apply IH].
    apply str_inj in Ea. subst a1.
    destruct (String.eqb (join p) kp); [|now apply IH].
    rewrite (terms_for_nil (str a) kp ts').
    + cbn [total fold_right]. rewrite Qplus_0_r. eapply term_bounded; eassumption.
    + intros t Ht. left. intros Hk.
      pose proof (alpha_terms_keys _ _ _ _ _ E') as Hkeys.
      rewrite Forall_forall in Hkeys. destruct (Hkeys t Ht) as [Hin _].
      rewrite Hk in Hin. apply in_map_iff in Hin as (a' & Ea' & Ha').
      apply str_inj in Ea'. subst a'. contradiction.
Qed.

Lemma profile_terms_keys (g : Graph) (u : node) (d : nat) (ns : list node)
      (alphas : list Z) (h : Hierarchies) (profiles : list (list string))
      (ts : list term) :
  collect (profile_terms g u d ns alphas h) profiles = Ok ts ->
  Forall (fun t : term => In (snd (fst t)) (map join profiles)) ts.
Proof.
  assert (G : forall ps, incl ps profiles ->
                         forall ts, collect (profile_terms g u d ns alphas h) ps = Ok ts ->
                                    Forall (fun t : term => In (snd (fst t)) (map join profiles)) ts).
  { intros ps Hincl. apply collect_Forall. intros p ys Hp E.
    unfold profile_terms in E. apply bind_Ok in E as (sim & _ & E).
    apply alpha_terms_keys in E. rewrite Forall_forall in *.
    intros t Ht. destruct (E t Ht) as [_ ->]. apply in_map. now apply Hincl. }
  apply G. apply incl_refl.
Qed.

(** Under two keys, the terms of one shell weigh at most
    [dist ** -alpha]. *)
Lemma profile_terms_bounded (g : Graph) (u : node) (d : nat) (ns : list node)
      (alphas : list Z) (h : Hierarchies) (a : Z) (kp : string) :
  (1 <= d)%nat -> bounded_ranks h -> NoDup alphas ->
  forall profiles ts,
    NoDup (map join profiles) ->
    collect (profile_terms g u d ns alphas h) profiles = Ok ts ->
    (Qabs (total (terms_for (str a) kp ts)) <= py_pow (Z.of_nat d) (- a))%Q.
Proof.
  intros Hd Hb Hna. pose proof (py_pow_pos d (- a) Hd) as Hpos.
  induction profiles as [|p1 profiles IH]; intros ts Hnd E; cbn [collect] in E.
  - injection E as <-. now apply Qlt_le_weak.
  - cbn [map] in Hnd. inversion Hnd as [|? ? Hfresh Hnd']; subst.
    apply bind_Ok in E as (tp & Ep & E). apply bind_Ok in E as (ts' & E' & [= <-]).
    unfold profile_terms in Ep. apply bind_Ok in Ep as (sim & Esim & Ep).
    apply (label_frequency_abs _ _ _ _ _ _ Hb) in Esim.
    rewrite terms_for_app, total_app.
    destruct (string_dec (join p1) kp) as [Ek|Hne].
    + rewrite (terms_for_nil (str a) kp ts').
      * cbn [total fold_right]. rewrite Qplus_0_r.
        eapply alpha_terms_bounded; eassumption.
      * intros t Ht. right. intros Hk.
        pose proof (profile_terms_keys _ _ _ _ _ _ _ _ E') as Hkeys.
        rewrite Forall_forall in Hkeys. specialize (Hkeys t Ht).
        rewrite Hk, <- Ek in Hkeys. contradiction.
    + rewrite (terms_for_nil (str a) kp tp).
      * cbn [total fold_right]. rewrite Qplus_0_l. now apply IH.
      * intros t Ht. right.
        pose proof (alpha_terms_keys _ _ _ _ _ Ep) as Hkeys.
        rewrite Forall_forall in Hkeys. destruct (Hkeys t Ht) as [_ ->]. exact Hne.
Qed.

Lemma weight_nonneg (a : Z) (d : nat) : (0 <= weight a d)%Q.
Proof.
  unfold weight. destruct (Nat.eqb_spec d 0); [apply Qle_refl|].
  apply Qlt_le_weak, py_pow_pos. lia.
Qed.

(** Under two keys, the terms of all the shells weigh at most the sum of
    the weights of their distances. *)
Lemma terms_bounded (g : Graph) (u : node) (profiles : list (list string))
      (alphas : list Z) (h : Hierarchies) (a : Z) (kp : string) :
  bounded_ranks h -> NoDup alphas -> NoDup (map join profiles) ->
  forall (shells : Dict nat (list node)) ts,
    terms g u shells profiles alphas h = Ok ts ->
    (Qabs (total (terms_for (str a) kp ts)) <= shell_weight a (keys shells))%Q.
Proof.
  intros Hb Hna Hnp. unfold terms.
  induction shells as [|[d ns] shells IH]; intros ts E; cbn [collect] in E.
  - injection E as <-. apply Qle_refl.
  - apply bind_Ok in E as (t1 & E1 & E). apply bind_Ok in E as (ts' & E' & [= <-]).
    rewrite terms_for_app, total_app.
    change (shell_weight a (keys ((d, ns) :: shells)))
      with (weight a d + shell_weight a (keys shells))%Q.
    eapply Qle_trans; [apply Qabs_triangle|].
    apply Qplus_le_compat; [|now apply IH].
    cbn [shell_terms] in E1. unfold weight.
    destruct (Nat.eqb_spec d 0) as [->|Hd].
    + injection E1 as <-. apply Qle_refl.
    + eapply profile_terms_bounded; try eassumption. lia.
Qed.

Lemma filter_fresh (x : nat) (ds : list nat) :
  ~ In x ds -> filter (fun d => negb (Nat.eqb d x)) ds = ds.
Proof.
  induction ds as [|d ds IH]; intros Hx; [reflexivity|]. cbn [filter].
  destruct (Nat.eqb_spec d x) as [->|_]; [exfalso; apply Hx; now left|].
  cbn [negb]. f_equal. apply IH. intros H. apply Hx. now right.
Qed.

Lemma shell_weight_split (a : Z) (x : nat) (ds : list nat) :
  NoDup ds ->
  (shell_weight a ds
   <= shell_weight a (filter (fun d => negb (Nat.eqb d x)) ds) + weight a x)%Q.
Proof.
  induction 1 as [|d ds Hd Hnd IH].
  - cbn [filter]. change (shell_weight a []) with 0%Q. rewrite Qplus_0_l.
    apply weight_nonneg.
  - cbn [filter]. change (shell_weight a (d :: ds)) with (weight a d + shell_weight a ds)%Q.
    destruct (Nat.eqb_spec d x) as [->|Hne]; cbn [negb].
    + rewrite filter_fresh by exact Hd. rewrite Qplus_comm. apply Qle_refl.
    + change (shell_weight a (d :: filter (fun d0 => negb (Nat.eqb d0 x)) ds))
        with (weight a d + shell_weight a (filter (fun d0 => negb (Nat.eqb d0 x)) ds))%Q.
      rewrite <- Qplus_assoc. apply Qplus_le_compat; [apply Qle_refl | exact IH].
Qed.

Lemma norm_S (a : Z) (D : nat) :
  (norm a (S D) == norm a D + py_pow (Z.of_nat (S D)) (- a))%Q.
Proof.
  unfold norm. rewrite !py_sum_total, seq_S, map_app, total_app.
  cbn [map]. change (1 + D)%nat with (S D).
  change (total [py_pow (Z.of_nat (S D)) (- a)])
    with (py_pow (Z.of_nat (S D)) (- a) + 0)%Q.
  ring.
Qed.

(** Distinct distances up to [D] weigh at most the divisor for [D]. *)
Lemma shell_weight_le_norm (a : Z) (D : nat) :
  forall ds, NoDup ds -> (forall d, In d ds -> (d <= D)%nat) ->
             (shell_weight a ds <= norm a D)%Q.
Proof.
  induction D as [|D IH]; intros ds Hnd Hle.
  - assert (Hz : (shell_weight a ds == 0)%Q).
    { clear Hnd. induction ds as [|d ds IHds]; [reflexivity|].
      change (shell_weight a (d :: ds)) with (weight a d + shell_weight a ds)%Q.
      rewrite IHds by (intros d' Hd'; apply Hle; now right).
      assert (d = 0%nat) as -> by (specialize (Hle d (or_introl eq_refl)); lia).
      reflexivity. }
    rewrite Hz. apply Qle_refl.
  - eapply Qle_trans; [apply (shell_weight_split a (S D)); exact Hnd|].
    rewrite norm_S. apply Qplus_le_compat.
    + apply IH.
      * now apply NoDup_filter.
      * intros d Hd. apply filter_In in Hd as [Hd Hne].
        specialize (Hle d Hd). destruct (Nat.eqb_spec d (S D)); [discriminate | lia].
    + apply Qle_refl.
Qed.

Lemma list_max_ge (ds : list nat) (d : nat) : In d ds -> (d <= list_max ds)%nat.
Proof.
  induction ds as [|d0 ds IH]; intros Hin; [destruct Hin|].
  cbn [list_max fold_right]. fold (list_max ds).
  destruct Hin as [->|Hin]; [lia|]. specialize (IH Hin). lia.
Qed.

Lemma add_terms_from_zero (u : node) (ts : list term) (res r : Scores)
      (ka kp : string) (z : Q) :
  for_each ts (add_term u) res = Ok r ->
  (forall a p x, score res a p u = Some x -> x = 0%Q) ->
  score r ka kp u = Some z -> (z == total (terms_for ka kp ts))%Q.
Proof.
  intros E Hz Hr. destruct (add_terms_score _ _ _ _ E) as [Hs _].
  rewrite Hs in Hr. destruct (score res ka kp u) as [y|] eqn:Ey; [|discriminate].
  injection Hr as <-. rewrite (Hz _ _ _ Ey).
  rewrite fold_left_py_add_total. ring.
Qed.

(** The turn of a node whose scores are still [0] leaves them within
    [[-1, 1]]. *)
Lemma node_step_bounded (g : Graph) (distances : Dict node (Dict node nat))
      (profiles : list (list string)) (alphas : list Z) (h : Hierarchies)
      (res res' : Scores) (u : node) :
  bounded_ranks h -> NoDup alphas -> NoDup (map join profiles) ->
  wf_scores res -> ready u alphas res ->
  (forall a p x, score res a p u = Some x -> x = 0%Q) ->
  node_step g distances profiles alphas h res u = Ok res' ->
  forall ka kp x, score res' ka kp u = Some x -> (Qabs x <= 1)%Q.
Proof.
  intros Hb Hna Hnp Hwf Hready Hzero E ka kp x Hx.
  unfold node_step in E. set (shells := shells_of (get_default [] distances u)) in E.
  destruct (Nat.eq_dec (list_max (keys shells)) 0) as [HD|HD].
  - (* nothing at a positive distance: the scores stay at 0 *)
    assert (Hz : forall d, In d (keys shells) -> d = 0%nat).
    { intros d Hd. apply list_max_ge in Hd. lia. }
    rewrite (accumulate_zero_shells _ _ _ _ _ _ _ Hz) in E. cbn [bind] in E.
    assert (x = 0%Q) as ->; [|apply Qabs_Qle_condition; split; discriminate].
    destruct (0 <? _)%nat.
    + eapply normalize_keeps_zero; eassumption.
    + injection E as <-. eapply Hzero; eassumption.
  - apply bind_Ok in E as (acc & Eacc & E).
    destruct shells as [|s0 shells'] eqn:Es; [cbn in HD; congruence|].
    cbn [List.length Nat.ltb Nat.leb] in E. rewrite <- Es in *.
    pose proof (accumulate_touches _ _ _ _ _ _ _ _ Eacc) as [Hpres _].
    apply accumulate_terms in Eacc as (ts & Ets & Eadd).
    destruct (normalize_spec u (list_max (keys shells)) alphas Hna) with (scores := acc)
      as (r & En & Hin & Hout); [lia | now apply (pres_wf _ _ Hpres)
                                | eapply ready_preserved; eassumption |].
    rewrite En in E. injection E as <-.
    destruct (in_dec string_dec ka (map str alphas)) as [Hka|Hka].
    + apply in_map_iff in Hka as (a & <- & Ha).
      rewrite Hin in Hx by exact Ha.
      destruct (score acc (str a) kp u) as [z|] eqn:Ez; [|discriminate].
      cbn [option_map] in Hx.
      assert (Hxv : x = Qred (z / norm a (list_max (keys shells)))) by congruence.
      rewrite Hxv. clear Hxv Hx.
      pose proof (add_terms_from_zero _ _ _ _ _ _ _ Eadd Hzero Ez) as Hzt.
      pose proof (terms_bounded g u profiles alphas h a kp Hb Hna Hnp shells ts Ets) as Ht.
      assert (Hw : (shell_weight a (keys shells) <= norm a (list_max (keys shells)))%Q).
      { apply shell_weight_le_norm; [apply shells_of_NoDup | apply list_max_ge]. }
      assert (Hnorm : (0 < norm a (list_max (keys shells)))%Q) by (apply norm_pos; lia).
      rewrite Qred_correct. unfold Qdiv.
      rewrite Qabs_Qmult, Qabs_Qinv, (Qabs_pos (norm _ _)) by now apply Qlt_le_weak.
      apply Qle_shift_div_r; [exact Hnorm|]. rewrite Qmult_1_l, Hzt.
      eapply Qle_trans; eassumption.
    + rewrite Hout in Hx by (right; intros a Ha <-; apply Hka; now apply in_map).
      pose proof (add_terms_from_zero _ _ _ _ _ _ _ Eadd Hzero Hx) as Hzt.
      rewrite (terms_for_nil ka kp ts) in Hzt.
      * rewrite Hzt. apply Qabs_Qle_condition. split; discriminate.
      * assert (Hkeys : Forall (fun t : term => In (fst (fst t)) (map str alphas)) ts).
        { revert Ets. unfold terms.
          apply collect_Forall. intros [d ns] ys _ Ey. cbn [shell_terms] in Ey.
          destruct (Nat.eqb d 0); [injection Ey as <-; constructor|].
          revert Ey. apply collect_Forall. intros p zs _ Ezs.
          unfold profile_terms in Ezs. apply bind_Ok in Ezs as (sim & _ & Ezs).
          apply alpha_terms_keys in Ezs. eapply Forall_impl; [|exact Ezs].
          intros t [Ht _]. exact Ht. }
        rewrite Forall_forall in Hkeys.
        intros t Ht. left. intros Hk. apply Hka. rewrite <- Hk. now apply Hkeys.
Qed.

Lemma nodes_loop_bounded (g : Graph) (distances : Dict node (Dict node nat))
      (profiles : list (list string)) (alphas : list Z) (h : Hierarchies) :
  bounded_ranks h -> NoDup alphas -> NoDup (map join profiles) ->
  forall us res res',
    NoDup us ->
    for_each us (node_step g distances profiles alphas h) res = Ok res' ->
    wf_scores res ->
    (forall u, In u us -> ready u alphas res) ->
    (forall u, In u us -> forall a p x, score res a p u = Some x -> x = 0%Q) ->
    (forall a p n x, score res a p n = Some x -> (Qabs x <= 1)%Q) ->
    forall a p n x, score res' a p n = Some x -> (Qabs x <= 1)%Q.
Proof.
  intros Hb Hna Hnp. induction us as [|u us IH];
    intros res res' Hnd E Hwf Hready Hzero Hbound; cbn [for_each] in E.
  - injection E as <-. exact Hbound.
  - inversion Hnd as [|? ? Hu Hnd']; subst.
    apply bind_Ok in E as (r1 & E1 & E).
    pose proof (node_step_touches _ _ _ _ _ _ _ _ E1) as [Hpres Hframe].
    apply (IH r1 res' Hnd' E).
    + now apply (pres_wf _ _ Hpres).
    + intros u' Hu'. eapply ready_preserved; [exact Hpres|]. apply Hready. now right.
    + intros u' Hu' a p x. rewrite Hframe by (intros ->; contradiction).
      apply Hzero. now right.
    + intros a p n x Hx. destruct (string_dec n u) as [->|Hn].
      * eapply (node_step_bounded g distances profiles alphas h res r1 u);
          try eassumption.
        -- apply Hready. now left.
        -- apply Hzero. now left.
      * rewrite Hframe in Hx by exact Hn. eapply Hbound; eassumption.
Qed.

(** In exact arithmetic the conformity values that [delta_conformity]
    returns lie in [[-1, 1]], when the ranks of every hierarchy stay within
    its size (in particular without hierarchies), the alphas are pairwise
    distinct, no two profiles share their joined name and no node is listed
    twice.  The bound compares the accumulated sum with the divisor, two
    sums that floating point rounds apart: there a value can exceed [1] by
    a rounding error. *)
Lemma delta_conformity_exact_range
        (dg : DynGraph) (start delta : Z) (alphas : list Z) (labels : list string)
        (profile_size : Z) (h : Hierarchies) (path_type : string)
        (tr : list event) (res : Scores) :
  delta_conformity dg start delta alphas labels profile_size h path_type
  = (tr, Ok res) ->
  bounded_ranks h -> NoDup alphas ->
  NoDup (map join (make_profiles labels profile_size)) ->
  NoDup (nodes (time_slice dg start (start + delta))) ->
  forall a p n x, score res a p n = Some x -> (-1 <= x)%Q /\ (x <= 1)%Q.
Proof.
  intros E Hb Hna Hnp Hnn a p n x Hx.
  apply delta_conformity_Ok in E as (_ & distances & _ & E).
  apply (proj1 (Qabs_Qle_condition x 1)).
  eapply (nodes_loop_bounded _ distances _ alphas h Hb Hna Hnp _ _ res Hnn E);
    [apply init_scores_wf | | | | exact Hx].
  - intros u Hu. now apply init_scores_ready.
  - intros u _ a0 p0 x0. apply init_scores_only_zero.
  - intros a0 p0 n0 x0 H0. apply init_scores_only_zero in H0. subst x0.
    apply Qabs_Qle_condition. split; discriminate.
Qed.

(** ** sliding_delta_conformity *)

Lemma io_bind_Ok {A B : Type} (m : io A) (k : A -> io B) (tr : list event) (b : B) :
  io_bind m k = (tr, Ok b) ->
  exists tr1 a tr2, m = (tr1, Ok a) /\ k a = (tr2, Ok b) /\ tr = tr1 ++ tr2.
Proof.
  destruct m as [tr1 [a|e]]; cbn [io_bind]; [|discriminate].
  destruct (k a) as [tr2 r] eqn:Ek. intros [= <- ->]. eauto 6.
Qed.

(** The loop of [sliding_delta_conformity] over a part [l] of the ids,
    with the last id [L] of the whole list. *)
Lemma sliding_loop_Ok (dg : DynGraph) (delta : Z) (alphas : list Z)
      (labels : list string) (profile_size : Z) (h : Hierarchies)
      (path_type : string) (L : Z) :
  forall (l : list Z) (s s' : Series) (tr : list event),
    io_for_each l
      (fun s t =>
         if t + delta <? L then
           dconf <-- delta_conformity dg t delta alphas labels profile_size
                                      h path_type ;;
           io_ret (record_window (t + delta) dconf s)
         else io_ret s) s = (tr, Ok s') ->
    tr = flat_map (window_calls delta) (filter (fun t => t + delta <? L) l)
    /\ forall a p n,
        series_at s' a p n
        = series_at s a p n
          ++ flat_map (window_points dg delta alphas labels profile_size h path_type
                                     a p n)
                      (filter (fun t => t + delta <? L) l).
Proof.
  induction l as [|t l IH]; intros s s' tr E; cbn [io_for_each filter] in *.
  - injection E as <- <-. split; [reflexivity|]. intros a p n. cbn [flat_map].
    now rewrite app_nil_r.
  - apply io_bind_Ok in E as (tr1 & s1 & tr2 & E1 & E2 & ->).
    destruct (IH _ _ _ E2) as (-> & Hs).
    destruct (t + delta <? L).
    + apply io_bind_Ok in E1 as (trw & dconf & tr0 & Ew & [= <- <-] & ->).
      cbn [flat_map]. split.
      * rewrite app_nil_r. f_equal.
        now apply delta_conformity_Ok in Ew as (-> & _).
      * intros a p n. rewrite Hs.
        rewrite (series_at_record_window _ _ _ _ _ _ (delta_conformity_wf _ _ _ _ _ _ _ _ _ _ Ew)).
        rewrite <- app_assoc. f_equal. f_equal. unfold window_points. now rewrite Ew.
    + injection E1 as <- <-. split; [reflexivity | exact Hs].
Qed.

Lemma point_fst_subseq (dg : DynGraph) (delta : Z) (alphas : list Z)
      (labels : list string) (profile_size : Z) (h : Hierarchies)
      (path_type : string) (a p : string) (n : node) (ts : list Z) :
  Subseq (map fst (flat_map (window_points dg delta alphas labels profile_size h
                                           path_type a p n) ts))
         (map (fun t => t + delta) ts).
Proof.
  induction ts as [|t ts IH]; cbn [flat_map map]; [constructor|].
  rewrite map_app. unfold window_points at 1.
  destruct (snd _) as [dconf|e]; [|now constructor].
  destruct (score dconf a p n); cbn [point map app fst]; now constructor.
Qed.

(** X14: a sliding run that returns has processed exactly the window
    starts [t] with [t + delta < tids[-1]], in the order of the ids, two
    calls each; the sequence under two keys and a node holds, in that
    order, one point [(t + delta, score)] for every window whose result
    has the entry, so that its time stamps follow the order of the ids. *)
Theorem sliding_series
        (dg : DynGraph) (delta : Z) (alphas : list Z) (labels : list string)
        (profile_size : Z) (h : Hierarchies) (path_type : string)
        (tr : list event) (s : Series) :
  sliding_delta_conformity dg delta alphas labels profile_size h path_type
  = (tr, Ok s) ->
  let starts := window_starts (temporal_snapshots_ids dg) delta in
  tr = TemporalSnapshotsIds :: flat_map (window_calls delta) starts
  /\ forall a p n,
      series_at s a p n
      = flat_map (window_points dg delta alphas labels profile_size h path_type a p n)
                 starts
      /\ Subseq (map fst (series_at s a p n)) (map (fun t => t + delta) starts).
Proof.
  intros E starts. unfold sliding_delta_conformity in E. cbn [call io_bind] in E.
  destruct (io_for_each _ _ _) as [tr0 r] eqn:El. injection E as <- ->.
  apply sliding_loop_Ok in El as (-> & Hs). split; [reflexivity|].
  intros a p n. rewrite Hs. cbn [series_at get_default get app]. split; [reflexivity|].
  apply point_fst_subseq.
Qed.

(** X15: when no id [t] satisfies [t + delta < tids[-1]] (in particular
    when there is no id at all), the sliding run makes no call on a window
    and returns the empty result; [tids[-1]] is never read on an empty
    list. *)
Theorem sliding_no_window
        (dg : DynGraph) (delta : Z) (alphas : list Z) (labels : list string)
        (profile_size : Z) (h : Hierarchies) (path_type : string) :
  window_starts (temporal_snapshots_ids dg) delta = [] ->
  sliding_delta_conformity dg delta alphas labels profile_size h path_type
  = ([TemporalSnapshotsIds], Ok []).
Proof.
  unfold sliding_delta_conformity, window_starts. cbn [call io_bind].
  generalize (last_tid (temporal_snapshots_ids dg)). intros L Hf.
  match goal with |- context [io_for_each _ ?b _] => set (body := b) end.
  assert (G : forall l (s0 : Series),
             filter (fun t => t + delta <? L) l = [] ->
             io_for_each l body s0 = ([], Ok s0)).
  { induction l as [|t l IH]; intros s0 Hl; [reflexivity|].
    cbn [filter] in Hl. cbn [io_for_each]. unfold body at 1.
    destruct (t + delta <? L); [discriminate|].
    cbn [io_ret io_bind]. now rewrite (IH s0 Hl). }
  now rewrite (G _ _ Hf).
Qed.

(** X16: the first window that raises ends the sliding run with its
    exception; the sequences collected so far are not returned. *)
Theorem sliding_propagates
        (dg : DynGraph) (delta : Z) (alphas : list Z) (labels : list string)
        (profile_size : Z) (h : Hierarchies) (path_type : string)
        (before after : list Z) (t : Z) (e : exn) :
  window_starts (temporal_snapshots_ids dg) delta = before ++ t :: after ->
  (forall t', In t' before ->
              exists dconf,
                snd (delta_conformity dg t' delta alphas labels profile_size h path_type)
                = Ok dconf) ->
  snd (delta_conformity dg t delta alphas labels profile_size h path_type) = Raise e ->
  snd (sliding_delta_conformity dg delta alphas labels profile_size h path_type)
  = Raise e.
Proof.
  unfold sliding_delta_conformity, window_starts. cbn [call io_bind].
  generalize (last_tid (temporal_snapshots_ids dg)). intros L.
  generalize (@nil (string * Dict string (Dict node (list (Z * Q))))).
  intros s0 Hf Hbefore Hraise.
  match goal with
  | |- snd (let (_, _) := ?m in _) = _ => assert (G : snd m = Raise e)
  end.
  2:{ destruct (io_for_each _ _ _) as [tr r]. cbn [snd] in *. exact G. }
  revert s0 before Hf Hbefore.
  induction (temporal_snapshots_ids dg) as [|t0 l IH]; intros s0 before Hf Hbefore.
  - cbn [filter] in Hf. now destruct before.
  - cbn [filter] in Hf. cbn [io_for_each].
    destruct (t0 + delta <? L).
    + destruct before as [|b before]; cbn [app] in Hf; injection Hf as -> Hf.
      * destruct (delta_conformity dg t delta alphas labels profile_size h path_type)
          as [trw rw]. cbn [snd] in Hraise. subst rw. reflexivity.
      * destruct (Hbefore b (or_introl eq_refl)) as (dconf & Hd).
        destruct (delta_conformity dg b delta alphas labels profile_size h path_type)
          as [trw rw]. cbn [snd] in Hd. subst rw. cbn [io_bind io_ret].
        specialize (IH (record_window (b + delta) dconf s0) before Hf
                       (fun t' Ht' => Hbefore t' (or_intror Ht'))).
        destruct (io_for_each l _ _) as [tr r]. cbn [snd] in *. exact IH.
    + cbn [io_ret io_bind]. specialize (IH s0 before Hf Hbefore).
      destruct (io_for_each l _ _) as [tr r]. cbn [snd] in *. exact IH.
Qed.

(** ** The order of the nodes *)

(** A loop that returns from one state returns from every related state,
    when its body does. *)
Lemma for_each_sim {A S : Type} (R : S -> S -> Prop) (xs : list A)
      (body : S -> A -> result S) :
  (forall x s1 s2 s1', In x xs -> R s1 s2 -> body s1 x = Ok s1' ->
                       exists s2', body s2 x = Ok s2' /\ R s1' s2') ->
  forall s1 s2 s1', R s1 s2 -> for_each xs body s1 = Ok s1' ->
                    exists s2', for_each xs body s2 = Ok s2' /\ R s1' s2'.
Proof.
  induction xs as [|x xs IH]; intros Hb s1 s2 s1' HR E; cbn [for_each] in *.
  - injection E as <-. eauto.
  - apply bind_Ok in E as (t1 & E1 & E).
    destruct (Hb x s1 s2 t1 (or_introl eq_refl) HR E1) as (t2 & -> & HR').
    cbn [bind]. apply (IH (fun y u1 u2 u1' Hy => Hb y u1 u2 u1' (or_intror Hy)) t1);
      assumption.
Qed.

Lemma update_score_sim (u : node) (r1 r2 r1' : Scores) (a p : string)
      (f : Q -> result Q) :
  agree_at u r1 r2 -> update_score r1 a p u f = Ok r1' ->
  exists r2', update_score r2 a p u f = Ok r2' /\ agree_at u r1' r2'.
Proof.
  intros [Hk Hs] E.
  apply update_score_Ok in E as (x & y & Hx & Hf & Hy & Hoth & Hk1 & _).
  rewrite Hs in Hx.
  destruct (update_score_run r2 a p u f x y Hx Hf) as (r2' & E2).
  exists r2'. split; [exact E2|].
  apply update_score_Ok in E2 as (x2 & y2 & Hx2 & Hf2 & Hy2 & Hoth2 & Hk2 & _).
  assert (y2 = y) as -> by congruence.
  split.
  - intros a'. now rewrite Hk1, Hk2.
  - intros a' p'.
    destruct (string_dec a' a) as [->|Ha];
      [destruct (string_dec p' p) as [->|Hp]|].
    + now rewrite Hy, Hy2.
    + rewrite Hoth, Hoth2 by congruence. apply Hs.
    + rewrite Hoth, Hoth2 by congruence. apply Hs.
Qed.

(** The turn of [u] reads the shared result through the scores of [u]
    and the profile keys only. *)
Lemma node_step_sim (g : Graph) (distances : Dict node (Dict node nat))
      (profiles : list (list string)) (alphas : list Z) (h : Hierarchies)
      (u : node) (r1 r2 r1' : Scores) :
  agree_at u r1 r2 ->
  node_step g distances profiles alphas h r1 u = Ok r1' ->
  exists r2', node_step g distances profiles alphas h r2 u = Ok r2'
              /\ agree_at u r1' r2'.
Proof.
  intros HR E. unfold node_step in *.
  apply bind_Ok in E as (acc1 & Eacc & E).
  apply accumulate_terms in Eacc as (ts & Ets & Eadd).
  destruct (for_each_sim (agree_at u) ts (add_term u)) with (s1 := r1) (s2 := r2)
                                                             (s1' := acc1)
    as (acc2 & Eadd2 & HR2); [|exact HR|exact Eadd|].
  { intros [[a p] x] s1 s2 s1' _. cbn [add_term]. apply update_score_sim. }
  assert (Eacc2 : accumulate g u (shells_of (get_default [] distances u))
                             profiles alphas h r2 = Ok acc2)
    by (apply accumulate_terms; eauto).
  rewrite Eacc2. cbn [bind].
  destruct (0 <? _)%nat; [|injection E as <-; eauto].
  revert E. unfold normalize. apply for_each_sim; [|exact HR2].
  intros alpha s1 s2 s1' _ Hs E.
  apply bind_Ok in E as (bp1 & Ebp1 & E).
  unfold getitem in Ebp1. destruct (get s1 (str alpha)) as [bp1'|] eqn:G1; [|discriminate].
  injection Ebp1 as ->.
  pose proof (proj1 Hs (str alpha)) as Hk. rewrite G1 in Hk.
  unfold getitem. destruct (get s2 (str alpha)) as [bp2|] eqn:G2; [|discriminate].
  injection Hk as Hk. cbn [bind]. rewrite <- Hk.
  revert E. apply for_each_sim; [|exact Hs].
  intros p t1 t2 t1' _. apply update_score_sim.
Qed.

Lemma node_step_cong (g : Graph) (distances : Dict node (Dict node nat))
      (profiles : list (list string)) (alphas : list Z) (h : Hierarchies)
      (u : node) (r1 r2 r1' : Scores) :
  same_scores r1 r2 ->
  node_step g distances profiles alphas h r1 u = Ok r1' ->
  exists r2', node_step g distances profiles alphas h r2 u = Ok r2'
              /\ same_scores r1' r2'.
Proof.
  intros HR E.
  destruct (node_step_sim _ _ _ _ _ _ _ _ _ (HR u) E) as (r2' & E2 & [Hk Hs]).
  exists r2'. split; [exact E2|].
  apply node_step_touches in E as [_ F1]. apply node_step_touches in E2 as [_ F2].
  intros n. split; [exact Hk|]. intros a p.
  destruct (string_dec n u) as [->|Hn]; [apply Hs|].
  rewrite F1, F2 by exact Hn. apply (HR n).
Qed.

Lemma same_scores_refl (r : Scores) : same_scores r r.
Proof. intros u. now split. Qed.

Lemma same_scores_trans (r1 r2 r3 : Scores) :
  same_scores r1 r2 -> same_scores r2 r3 -> same_scores r1 r3.
Proof.
  intros H12 H23 u. destruct (H12 u) as [K1 S1], (H23 u) as [K2 S2]. split.
  - intros a. now rewrite K1.
  - intros a p. now rewrite S1.
Qed.

(** The turns of two different nodes can be exchanged. *)
Lemma node_step_swap (g : Graph) (distances : Dict node (Dict node nat))
      (profiles : list (list string)) (alphas : list Z) (h : Hierarchies)
      (u u' : node) (res r1 r2 : Scores) :
  u <> u' ->
  node_step g distances profiles alphas h res u = Ok r1 ->
  node_step g distances profiles alphas h r1 u' = Ok r2 ->
  exists r1' r2',
    node_step g distances profiles alphas h res u' = Ok r1'
    /\ node_step g distances profiles alphas h r1' u = Ok r2'
    /\ same_scores r2 r2'.
Proof.
  intros Hne E1 E2.
  pose proof (node_step_touches _ _ _ _ _ _ _ _ E1) as [P1 F1].
  pose proof (node_step_touches _ _ _ _ _ _ _ _ E2) as [P2 F2].
  assert (A1 : agree_at u' r1 res).
  { split; [apply (pres_keys _ _ P1)|]. intros a p. now apply F1, not_eq_sym. }
  destruct (node_step_sim _ _ _ _ _ _ _ _ _ A1 E2) as (r1' & E1' & [K1' S1']).
  pose proof (node_step_touches _ _ _ _ _ _ _ _ E1') as [P1' F1'].
  assert (A2 : agree_at u res r1').
  { split; [intros a; symmetry; apply (pres_keys _ _ P1')|].
    intros a p. symmetry. now apply F1'. }
  destruct (node_step_sim _ _ _ _ _ _ _ _ _ A2 E1) as (r2' & E2' & [K2' S2']).
  pose proof (node_step_touches _ _ _ _ _ _ _ _ E2') as [P2' F2'].
  exists r1', r2'. split; [exact E1'|]. split; [exact E2'|].
  intros n. split.
  - intros a. rewrite (pres_keys _ _ P2), <- K2'. reflexivity.
  - intros a p. destruct (string_dec n u) as [->|Hu].
    + rewrite F2 by exact Hne. apply S2'.
    + rewrite F2' by exact Hu.
      destruct (string_dec n u') as [->|Hu']; [apply S1'|].
      now rewrite F2, F1, F1'.
Qed.

Lemma nodes_loop_perm (g : Graph) (distances : Dict node (Dict node nat))
      (profiles : list (list string)) (alphas : list Z) (h : Hierarchies)
      (us us' : list node) :
  Permutation us us' ->
  forall r1 r2 r1',
    same_scores r1 r2 ->
    for_each us (node_step g distances profiles alphas h) r1 = Ok r1' ->
    exists r2', for_each us' (node_step g distances profiles alphas h) r2 = Ok r2'
                /\ same_scores r1' r2'.
Proof.
  induction 1 as [|u us us' _ IH|u u' us|us1 us2 us3 _ IH1 _ IH2];
    intros r1 r2 r1' HR E.
  - injection E as <-. exists r2. now split.
  - cbn [for_each] in *. apply bind_Ok in E as (t1 & E1 & E).
    destruct (node_step_cong _ _ _ _ _ _ _ _ _ HR E1) as (t2 & -> & HR').
    cbn [bind]. eapply IH; eassumption.
  - cbn [for_each] in E. apply bind_Ok in E as (t1 & E1 & E).
    apply bind_Ok in E as (t2 & E2 & E).
    assert (Hrest : forall s2, same_scores t2 s2 ->
                               exists r2', for_each us (node_step g distances profiles alphas h) s2
                                           = Ok r2' /\ same_scores r1' r2').
    { intros s2 Hs. revert E. apply for_each_sim; [|exact Hs].
      intros x s s0 s' _. apply node_step_cong. }
    destruct (string_dec u' u) as [->|Hne].
    + destruct (node_step_cong _ _ _ _ _ _ _ _ _ HR E1) as (w1 & Ew1 & HR1).
      destruct (node_step_cong _ _ _ _ _ _ _ _ _ HR1 E2) as (w2 & Ew2 & HR2).
      destruct (Hrest w2 HR2) as (r2' & Er & Hr).
      exists r2'. split; [|exact Hr]. cbn [for_each]. rewrite Ew1. cbn [bind].
      rewrite Ew2. exact Er.
    + destruct (node_step_swap _ _ _ _ _ _ _ _ _ _ Hne E1 E2)
        as (w1 & w2 & Ew1 & Ew2 & Hw).
      destruct (node_step_cong _ _ _ _ _ _ _ _ _ HR Ew1) as (v1 & Ev1 & Hv1).
      destruct (node_step_cong _ _ _ _ _ _ _ _ _ Hv1 Ew2) as (v2 & Ev2 & Hv2).
      destruct (Hrest v2 (same_scores_trans _ _ _ Hw Hv2)) as (r2' & Er & Hr).
      exists r2'. split; [|exact Hr]. cbn [for_each]. rewrite Ev1. cbn [bind].
      rewrite Ev2. exact Er.
  - destruct (IH1 _ _ _ HR E) as (m & Em & Hm).
    destruct (IH2 _ _ _ (same_scores_refl r2) Em) as (r2' & Er & Hr).
    exists r2'. split; [exact Er|]. eapply same_scores_trans; eassumption.
Qed.

(** X17: the loop of [delta_conformity] over the nodes can take them in
    any order: when it returns for one order, it returns for every other
    one, with the same score under every key and for every node. *)
Theorem nodes_order_independent
        (g : Graph) (distances : Dict node (Dict node nat))
        (profiles : list (list string)) (alphas : list Z) (h : Hierarchies)
        (us us' : list node) (res r : Scores) :
  Permutation us us' ->
  for_each us (node_step g distances profiles alphas h) res = Ok r ->
  exists r',
    for_each us' (node_step g distances profiles alphas h) res = Ok r'
    /\ forall a p n, score r' a p n = score r a p n.
Proof.
  intros Hp E.
  destruct (nodes_loop_perm g distances profiles alphas h us us' Hp res res r
                            (same_scores_refl res) E) as (r' & E' & Hs).
  exists r'. split; [exact E'|]. intros a p n. symmetry. apply (Hs n).
Qed.

(** ** The divisor *)

Lemma norm_ge_1 (a : Z) (D : nat) : (1 <= D)%nat -> (1 <= norm a D)%Q.
Proof.
  induction D as [|D IH]; intros HD; [lia|].
  destruct D as [|D'].
  - unfold norm. rewrite py_sum_total. cbn [seq map].
    change (total [py_pow (Z.of_nat 1) (- a)]) with (py_pow (Z.of_nat 1) (- a) + 0)%Q.
    rewrite Qplus_0_r. unfold py_pow. rewrite Qred_correct.
    change (inject_Z (Z.of_nat 1)) with 1%Q. rewrite Qpower_1. apply Qle_refl.
  - rewrite norm_S. eapply Qle_trans; [apply IH; lia|].
    rewrite <- (Qplus_0_r (norm a (S D'))) at 1.
    apply Qplus_le_compat; [apply Qle_refl|].
    apply Qlt_le_weak, py_pow_pos. lia.
Qed.

(** X18: for a largest distance of at least [1] the divisor is at least
    [1], whatever the alpha: normalizing never increases the magnitude of
    a score. *)
Theorem normalization_never_amplifies (a : Z) (D : nat) (x : Q) :
  (1 <= D)%nat ->
  (1 <= norm a D)%Q /\ (Qabs (Qred (x / norm a D)) <= Qabs x)%Q.
Proof.
  intros HD. pose proof (norm_ge_1 a D HD) as H1. split; [exact H1|].
  assert (Hpos : (0 < norm a D)%Q) by (eapply Qlt_le_trans; [|exact H1]; reflexivity).
  rewrite Qred_correct. unfold Qdiv.
  rewrite Qabs_Qmult, Qabs_Qinv, (Qabs_pos (norm a D)) by now apply Qlt_le_weak.
  apply Qle_shift_div_r; [exact Hpos|].
  rewrite <- (Qmult_1_r (Qabs x)) at 1.
  apply Qmult_le_compat_nonneg; split;
    [apply Qabs_nonneg | apply Qle_refl | discriminate | exact H1].
Qed.

(* ================================================================== *)
(** * The further properties on the example *)

Local Open Scope string_scope.

Example repeated_alpha_out_of_range :
  exists res,
    snd (delta_conformity sample_dg 1 5 [1; 1] ["labels"] 1 None "fastest") = Ok res
    /\ score res "1" "labels" "B" = Some (-2 # 1).
Proof. eexists. split; reflexivity. Qed.

Lemma distance_singleton_hierarchy_witness :
  hierarchy_for singleton_hierarchy "labels" = Some [("SI", 0)]
  /\ distance "labels" "SI" "SI" singleton_hierarchy = Raise ZeroDivisionError.
Proof.
  split; [reflexivity|].
  apply (distance_singleton_hierarchy "labels" "SI" "SI" singleton_hierarchy
                                      [("SI", 0)] 0 0); reflexivity.
Defined.

Lemma homogeneity_bounds_witness :
  homogeneity sample_graph "A" "labels" = Ok (1 # 2)
  /\ (0 < 1 # 2)%Q /\ (1 # 2 <= 1)%Q.
Proof.
  split; [reflexivity|].
  apply (homogeneity_bounds sample_graph "A" "labels" (1 # 2)). reflexivity.
Defined.

Lemma label_frequency_bounded_witness :
  label_frequency sample_graph "B" ["A"; "D"] ["labels"] None = Ok (-3 # 4)
  /\ (-1 <= -3 # 4)%Q /\ (-3 # 4 <= 1)%Q.
Proof.
  split; [reflexivity|].
  apply (label_frequency_bounded sample_graph "B" ["A"; "D"] ["labels"] None (-3 # 4)).
  - intros label ranks v1 v2 r1 r2 Hh. discriminate Hh.
  - reflexivity.
Defined.

Lemma shells_group_by_distance_witness :
  build_distances sample_paths "fastest" = Ok sample_distances
  /\ (get (get_default [] sample_distances "A") "D" = Some 2%nat <->
      exists ns, get (shells_of (get_default [] sample_distances "A")) 2%nat = Some ns
                 /\ In "D" ns).
Proof.
  split; [reflexivity|].
  apply (proj1 (shells_group_by_distance sample_paths "fastest" sample_distances "A"
                                         eq_refl)).
Defined.

Lemma node_step_zero_distance_witness :
  shells_of (get_default [] zero_distances "A") = [(0%nat, ["A"])]
  /\ node_step sample_graph zero_distances [["labels"]] [1] None
               (init_scores sample_graph [["labels"]] [1]) "A"
     = Raise ZeroDivisionError.
Proof.
  split; [reflexivity|].
  apply (node_step_zero_distance
           sample_graph zero_distances [["labels"]] 1 [] None
           (init_scores sample_graph [["labels"]] [1]) "A" "labels"
           [("A", 0%Q); ("B", 0%Q); ("C", 0%Q); ("D", 0%Q)] [] 0%Q).
  - discriminate.
  - intros d [<-|[]]. reflexivity.
  - reflexivity.
  - reflexivity.
Defined.


Lemma delta_conformity_unknown_path_type_witness :
  get (sample_annotated 1) "slowest" = None
  /\ delta_conformity sample_dg 1 5 [1] ["labels"] 1 None "slowest"
     = ([TimeSlice 1 6; AllTimeRespectingPaths 1 6], Raise KeyError).
Proof.
  split; [reflexivity|].
  apply (delta_conformity_unknown_path_type
           sample_dg 1 5 [1] ["labels"] 1 None "slowest" ("A", "B") (sample_annotated 1)).
  - simpl. lia.
  - discriminate.
  - discriminate.
  - simpl. left. reflexivity.
  - reflexivity.
Defined.

Lemma delta_conformity_no_paths_witness :
  delta_conformity silent_dg 1 5 [1] ["labels"] 1 None "slowest"
  = ([TimeSlice 1 6; AllTimeRespectingPaths 1 6],
     Ok (init_scores sample_graph (make_profiles ["labels"] 1) [1])).
Proof.
  apply (delta_conformity_no_paths silent_dg 1 5 [1] ["labels"] 1 None "slowest").
  - simpl. lia.
  - discriminate.
  - discriminate.
  - reflexivity.
Defined.

Lemma delta_conformity_no_profiles_witness :
  exists res,
    delta_conformity sample_dg 1 5 [1] ["labels"] 0 None "fastest"
    = ([TimeSlice 1 6; AllTimeRespectingPaths 1 6], Ok res)
    /\ forall a, In a [1] -> get res (str a) = Some [].
Proof.
  apply (delta_conformity_no_profiles sample_dg 1 5 [1] ["labels"] 0 None "fastest"
                                      sample_distances).
  - lia.
  - discriminate.
  - discriminate.
  - reflexivity.
Defined.

Lemma delta_conformity_keys_witness :
  score sample_scores "1" "labels" "D" <> None <->
  exists a profile,
    In a [1] /\ In profile (make_profiles ["labels"] 1)
    /\ In "D" (nodes sample_graph) /\ "1" = str a /\ "labels" = join profile.
Proof.
  apply (delta_conformity_keys sample_dg 1 5 [1] ["labels"] 1 None "fastest"
                               [TimeSlice 1 6; AllTimeRespectingPaths 1 6] sample_scores).
  reflexivity.
Defined.

Example delta_conformity_exact_range_example :
  score sample_scores "1" "labels" "B" = Some (-1)%Q
  /\ (-1 <= -1)%Q /\ (-1 <= 1)%Q.
Proof.
  split; [reflexivity|].
  apply (delta_conformity_exact_range sample_dg 1 5 [1] ["labels"] 1 None "fastest"
                                  [TimeSlice 1 6; AllTimeRespectingPaths 1 6]
                                  sample_scores eq_refl) with (a := "1") (p := "labels")
                                                               (n := "B").
  - intros label ranks v1 v2 r1 r2 Hh. discriminate Hh.
  - repeat constructor. simpl. tauto.
  - repeat constructor. simpl. tauto.
  - repeat constructor; simpl; intuition discriminate.
  - reflexivity.
Defined.

Lemma sliding_series_witness :
  sliding_delta_conformity sample_dg 5 [1] ["labels"] 1 None "fastest"
  = ([TemporalSnapshotsIds; TimeSlice 1 6; AllTimeRespectingPaths 1 6],
     Ok sample_series)
  /\ window_starts (temporal_snapshots_ids sample_dg) 5 = [1]
  /\ forall a p n,
      series_at sample_series a p n
      = flat_map (window_points sample_dg 5 [1] ["labels"] 1 None "fastest" a p n) [1]
      /\ Subseq (map fst (series_at sample_series a p n)) (map (fun t => t + 5) [1]).
Proof.
  split; [reflexivity|]. split; [reflexivity|].
  apply (proj2 (sliding_series sample_dg 5 [1] ["labels"] 1 None "fastest"
                               [TemporalSnapshotsIds; TimeSlice 1 6;
                                AllTimeRespectingPaths 1 6]
                               sample_series eq_refl)).
Defined.

Lemma sliding_no_window_witness :
  window_starts (temporal_snapshots_ids sample_dg) 6 = []
  /\ sliding_delta_conformity sample_dg 6 [1] ["labels"] 1 None "fastest"
     = ([TemporalSnapshotsIds], Ok []).
Proof.
  split; [reflexivity|].
  apply (sliding_no_window sample_dg 6 [1] ["labels"] 1 None "fastest"). reflexivity.
Defined.

Lemma sliding_propagates_witness :
  window_starts (temporal_snapshots_ids sample_dg) 5 = ([] ++ 1 :: [])%list
  /\ snd (sliding_delta_conformity sample_dg 5 [1] ["labels"] 1 None "slowest")
     = Raise KeyError.
Proof.
  split; [reflexivity|].
  apply (sliding_propagates sample_dg 5 [1] ["labels"] 1 None "slowest" [] [] 1 KeyError).
  - reflexivity.
  - intros t' [].
  - reflexivity.
Defined.

Lemma nodes_order_independent_witness :
  exists r',
    for_each ["D"; "C"; "B"; "A"]
             (node_step sample_graph sample_distances [["labels"]] [1] None)
             (init_scores sample_graph [["labels"]] [1]) = Ok r'
    /\ forall a p n, score r' a p n = score sample_scores a p n.
Proof.
  apply (nodes_order_independent sample_graph sample_distances [["labels"]] [1] None
                                 ["A"; "B"; "C"; "D"] ["D"; "C"; "B"; "A"]
                                 (init_scores sample_graph [["labels"]] [1])
                                 sample_scores).
  - apply Permutation_rev.
  - reflexivity.
Defined.

Lemma normalization_never_amplifies_witness :
  (1 <= norm 1 3)%Q /\ (Qabs (Qred ((1 # 2) / norm 1 3)) <= Qabs (1 # 2))%Q.
Proof.
  apply (normalization_never_amplifies 1 3 (1 # 2)). lia.
Defined.
